(** * vminspect.timeline: the NTFS timeline core

    A shallow embedding of [vminspect/timeline.py]: the aggregation of the
    USN journal records ([parse_journal], [journal_event]), the index of the
    file system walk ([_visit_filesystem]) and the correlation of the two
    ([generate_timeline], [lookup_dirent]).

    Python values are modelled as follows.
    - [int] is [Z]; [str] is [string]; [str(n)] is the decimal numeral.
    - a namedtuple is a record with the fields the code reads.
    - an exception is a value of [result]; the two exceptions the module can
      raise, [LookupError] and its subclass [IndexError], are both caught by
      [except LookupError].
    - [defaultdict(list)] is a [gmap Z (list Dirent)] together with the
      insertion that reading a missing key performs.
    - a generator is modelled by the list of the values it yields when it is
      run to completion, paired with the final state of the objects it
      mutates. *)

From Stdlib Require Import ZArith String Ascii DecimalString DecimalZ.
From stdpp Require Import base option list gmap strings.

Local Open Scope Z_scope.
Local Open Scope string_scope.
Local Open Scope list_scope.

(** ** Exceptions *)

Inductive exception : Type :=
  | LookupError (msg : string)
  | IndexError (msg : string).

Inductive result (A : Type) : Type :=
  | Ok (a : A)
  | Raise (e : exception).
Arguments Ok {A} a.
Arguments Raise {A} e.

Global Instance result_ret : MRet result := λ A a, Ok a.
Global Instance result_bind : MBind result := λ A B k r,
  match r with
  | Ok a => k a
  | Raise e => Raise e
  end.

(** A list comprehension whose element expression may raise: the first
    exception ends it. *)
Fixpoint comprehension {A B : Type} (f : A → result B) (l : list A)
  : result (list B) :=
  match l with
  | [] => Ok []
  | x :: xs => y ← f x; ys ← comprehension f xs; mret (y :: ys)
  end.

(** ** Strings *)

(** [str(n)] for a Python [int]. *)
Definition str (n : Z) : string := NilZero.string_of_int (Z.to_int n).

(** [s in t] for two Python strings: [s] occurs in [t] at some offset. *)
Fixpoint contains (s t : string) : bool :=
  String.prefix s t ||
  match t with
  | EmptyString => false
  | String _ t' => contains s t'
  end.

(** [s] occurs in [t], as a proposition. *)
Definition substring (s t : string) : Prop :=
  ∃ pre post : string, t = pre +:+ s +:+ post.

(** ** Records *)

(** A record of the USN journal, as [usn_journal] hands it over; only the
    fields this module reads. *)
Record UsnRecord : Type := mkUsnRecord {
  file_reference_number : Z;
  file_name : string;
  timestamp : string;
  reasons : list string;
  file_attributes : list string
}.

Record JrnlEvent : Type := mkJrnlEvent {
  inode : Z;
  name : string;
  jrnl_timestamp : string;
  changes : list string;
  attributes : list string
}.

Record Dirent : Type := mkDirent {
  path : string;
  size : Z;
  allocated : bool
}.

Record Event : Type := mkEvent {
  ev_file_reference_number : Z;
  ev_path : string;
  ev_size : Z;
  ev_allocated : bool;
  ev_timestamp : string;
  ev_changes : list string;
  ev_attributes : list string
}.

(** An entry of [guestfs.filesystem_walk]. *)
Record TskDirent : Type := mkTskDirent {
  tsk_inode : Z;
  tsk_name : string;
  tsk_size : Z;
  tsk_flags : Z
}.

Global Instance Dirent_eq_dec : EqDecision Dirent.
Proof. solve_decision. Defined.
Global Instance JrnlEvent_eq_dec : EqDecision JrnlEvent.
Proof. solve_decision. Defined.
Global Instance Event_eq_dec : EqDecision Event.
Proof. solve_decision. Defined.

(** ** itertools *)

Section itertools.
Context {A : Type}.

(** [chain.from_iterable]. *)
Definition chain (ls : list (list A)) : list A := concat ls.

Variable key : A → string.

(** [groupby(iterable, key)]: one forward pass that compares the key of
    each element with the key of the group being built.  [groupby_from k l]
    returns the elements of [l] that still belong to the group of key [k],
    and the groups that follow it. *)
Fixpoint groupby_from (tgtkey : string) (l : list A)
  : list A * list (string * list A) :=
  match l with
  | [] => ([], [])
  | x :: xs =>
      if decide (key x = tgtkey) then
        let '(g, gs) := groupby_from tgtkey xs in (x :: g, gs)
      else
        let '(g, gs) := groupby_from (key x) xs in ([], (key x, x :: g) :: gs)
  end.

Definition groupby (l : list A) : list (string * list A) :=
  match l with
  | [] => []
  | x :: xs => let '(g, gs) := groupby_from (key x) xs in (key x, x :: g) :: gs
  end.

(** The number of the group each element is placed in, in the order of the
    elements: the members of the first group are numbered [n], those of the
    next [S n], and so on. *)
Fixpoint group_numbers (n : nat) (groups : list (list A)) : list nat :=
  match groups with
  | [] => []
  | g :: groups' => replicate (length g) n ++ group_numbers (S n) groups'
  end.

(** The same numbering for the pass that is inside the group of key
    [tgtkey], numbered [n]. *)
Definition numbers_from (tgtkey : string) (n : nat) (l : list A) : list nat :=
  let '(g, gs) := groupby_from tgtkey l in
  replicate (length g) n ++ group_numbers (S n) (gs.*2).
End itertools.

(** ** The journal aggregator *)

Section timeline.
(** [list(set(iterable))]: the members of the set built from the given
    insertion sequence, in the order the interpreter iterates over it.  The
    language fixes no order; it promises each member once. *)
Variable list_of_set : list string → list string.
Hypothesis list_of_set_NoDup : ∀ l, NoDup (list_of_set l).
Hypothesis list_of_set_elem : ∀ l x, x ∈ list_of_set l ↔ x ∈ l.

(** [FileSystem.path], which turns a path of the walk into a path of the
    guest; defined in [vminspect/filesystem.py]. *)
Variable fs_path : string → string.

Definition keyfunc (e : UsnRecord) : string :=
  str (file_reference_number e) +:+ timestamp e.

Definition event_groups (journal : list UsnRecord) : list (list UsnRecord) :=
  (groupby keyfunc journal).*2.

Definition journal_event (events : list UsnRecord) : result JrnlEvent :=
  let reasons := list_of_set (chain (reasons <$> events)) in
  let attributes := list_of_set (chain (file_attributes <$> events)) in
  match events with
  | [] => Raise (IndexError "tuple index out of range")
  | e0 :: _ =>
      Ok (mkJrnlEvent (file_reference_number e0) (file_name e0) (timestamp e0)
            reasons attributes)
  end.

Definition parse_journal (journal : list UsnRecord) : result (list JrnlEvent) :=
  comprehension journal_event (event_groups journal).

(** The number of the group, and so of the [JrnlEvent], each record of the
    journal is placed in. *)
Definition group_of (journal : list UsnRecord) : list nat :=
  group_numbers 0 (event_groups journal).

(** ** The directory index *)

(** [content[k]] on a [defaultdict(list)]: a missing key is first bound to
    a new empty list. *)
Definition getitem (content : gmap Z (list Dirent)) (k : Z)
  : list Dirent * gmap Z (list Dirent) :=
  match content !! k with
  | Some dirents => (dirents, content)
  | None => ([], <[k := []]> content)
  end.

(** [content[k].append(d)]. *)
Definition append (content : gmap Z (list Dirent)) (k : Z) (d : Dirent)
  : gmap Z (list Dirent) :=
  let '(dirents, content) := getitem content k in
  <[k := dirents ++ [d]]> content.

(** The body of the loop of [_visit_filesystem]. *)
Definition visit (content : gmap Z (list Dirent)) (dirent : TskDirent)
  : gmap Z (list Dirent) :=
  let size := tsk_size dirent in
  let path := fs_path ("/" +:+ tsk_name dirent) in
  let allocated := bool_decide (tsk_flags dirent = 1) in
  append content (tsk_inode dirent) (mkDirent path size allocated).

Definition visit_filesystem (walk : list TskDirent) : gmap Z (list Dirent) :=
  foldl visit ∅ walk.

(** The [Dirent] the loop builds from one entry of the walk. *)
Definition dirent_of (dirent : TskDirent) : Dirent :=
  mkDirent (fs_path ("/" +:+ tsk_name dirent)) (tsk_size dirent)
           (bool_decide (tsk_flags dirent = 1)).

(** ** The correlator *)

(** The [for ... else] of [lookup_dirent]. *)
Fixpoint first_dirent (name : string) (dirents : list Dirent) : result Dirent :=
  match dirents with
  | [] => Raise (LookupError "Dirent not found")
  | dirent :: dirents' =>
      if contains name (path dirent) then Ok dirent
      else first_dirent name dirents'
  end.

Definition lookup_dirent (event : JrnlEvent) (content : gmap Z (list Dirent))
  : result Dirent * gmap Z (list Dirent) :=
  let '(dirents, content) := getitem content (inode event) in
  (first_dirent (name event) dirents, content).

(** [generate_timeline] run to completion: the events it yields and the
    index it leaves.  Every exception of the model is a [LookupError], so
    the handler takes each [Raise]. *)
Fixpoint generate_timeline (usnjrnl : list JrnlEvent)
    (content : gmap Z (list Dirent)) : list Event * gmap Z (list Dirent) :=
  match usnjrnl with
  | [] => ([], content)
  | event :: usnjrnl' =>
      match lookup_dirent event content with
      | (Ok dirent, content) =>
          let '(events, content) := generate_timeline usnjrnl' content in
          (mkEvent (inode event) (path dirent) (size dirent) (allocated dirent)
             (jrnl_timestamp event) (changes event) (attributes event)
             :: events, content)
      | (Raise _, content) => generate_timeline usnjrnl' content
      end
  end.

(** The [Event] the loop builds from a journal event and its entry. *)
Definition event_of (event : JrnlEvent) (dirent : Dirent) : Event :=
  mkEvent (inode event) (path dirent) (size dirent) (allocated dirent)
          (jrnl_timestamp event) (changes event) (attributes event).

(** What one turn of the loop yields for [event], read off an index that
    holds [content]: the event of the first matching entry, or nothing. *)
Definition yielded (content : gmap Z (list Dirent)) (event : JrnlEvent)
  : option Event :=
  match first_dirent (name event) (default [] (content !! inode event)) with
  | Ok dirent => Some (event_of event dirent)
  | Raise _ => None
  end.

(** [NTFSTimeline.timeline] on a journal and a walk already read. *)
Definition timeline (journal : list UsnRecord) (walk : list TskDirent)
  : result (list Event) :=
  journal ← parse_journal journal;
  let content := visit_filesystem walk in
  mret (generate_timeline journal content).1.

End timeline.

(** ** Sample data *)

(** An iteration order for sets: each member at its last insertion. *)
Definition sample_order (l : list string) : list string := remove_dups l.

Definition rec_1_23 : UsnRecord := mkUsnRecord 1 "a.txt" "23" ["CLOSE"] ["ARCHIVE"].
Definition rec_12_3 : UsnRecord := mkUsnRecord 12 "b.txt" "3" ["RENAME"] ["HIDDEN"].

(** Scenario A: two records of one change of [foo.txt]. *)
Definition rec_foo_extend : UsnRecord :=
  mkUsnRecord 5 "foo.txt" "2016-09-05 10:00:00" ["DATA_EXTEND"] ["ARCHIVE"].
Definition rec_foo_close : UsnRecord :=
  mkUsnRecord 5 "foo.txt" "2016-09-05 10:00:00" ["CLOSE"] ["ARCHIVE"].
Definition rec_bar_close : UsnRecord :=
  mkUsnRecord 6 "bar.txt" "2016-09-05 10:00:00" ["CLOSE"] ["ARCHIVE"].

(** Scenarios B, C and D: the index of a walk and three journal events. *)
Definition dirent_foo : Dirent := mkDirent "/dir/foo.txt" 120 true.
Definition dirent_report : Dirent := mkDirent "/a/report.txt" 64 true.
Definition dirent_report_old : Dirent := mkDirent "/a/report.txt.old" 64 false.

Definition sample_content : gmap Z (list Dirent) :=
  <[7 := [dirent_report; dirent_report_old]]> (<[5 := [dirent_foo]]> ∅).

Definition ev_foo : JrnlEvent :=
  mkJrnlEvent 5 "foo.txt" "2016-09-05 10:00:00" ["DATA_EXTEND"; "CLOSE"] ["ARCHIVE"].
Definition ev_bar : JrnlEvent :=
  mkJrnlEvent 6 "bar.txt" "2016-09-05 10:00:01" ["CLOSE"] ["ARCHIVE"].
Definition ev_report : JrnlEvent :=
  mkJrnlEvent 7 "report.txt" "2016-09-05 10:00:02" ["RENAME_NEW_NAME"] ["ARCHIVE"].
Definition ev_unnamed : JrnlEvent :=
  mkJrnlEvent 7 "" "2016-09-05 10:00:03" ["CLOSE"] ["ARCHIVE"].

Definition sample_walk : list TskDirent :=
  [mkTskDirent 7 "a/report.txt" 64 1; mkTskDirent 5 "dir/foo.txt" 120 1;
   mkTskDirent 7 "a/report.txt.old" 64 0].

(** Another iteration order for sets: [sample_order] read backwards. *)
Definition sample_order_rev (l : list string) : list string :=
  reverse (remove_dups l).

(** The lexical order of two timestamps. *)
Definition lexical_le (s t : string) : Prop := (s ?= t)%string ≠ Gt.

Definition rec_baz_later : UsnRecord :=
  mkUsnRecord 8 "baz.txt" "2016-09-05 10:00:07" ["CLOSE"] ["ARCHIVE"].

(** * Facts *)

(** ** Strings *)

Lemma to_int_not_nil (n : Z) :
  Z.to_int n ≠ Decimal.Pos Decimal.Nil ∧ Z.to_int n ≠ Decimal.Neg Decimal.Nil.
Proof.
  assert (Hp : ∀ p, Pos.to_uint p ≠ Decimal.Nil).
  { intros p Hnil. pose proof (DecimalPos.Unsigned.of_to p) as Hof.
    rewrite Hnil in Hof. discriminate Hof. }
  destruct n as [|p|p]; simpl; split; try discriminate;
    intros Heq; injection Heq; apply Hp.
Qed.

Lemma str_inj (a b : Z) : str a = str b → a = b.
Proof.
  unfold str. intros Heq. apply to_int_inj.
  destruct (to_int_not_nil a) as [Ha1 Ha2], (to_int_not_nil b) as [Hb1 Hb2].
  pose proof (NilZero.isi _ Ha1 Ha2) as Hia.
  pose proof (NilZero.isi _ Hb1 Hb2) as Hib.
  rewrite Heq, Hib in Hia. congruence.
Qed.

Lemma string_app_length (s t : string) :
  String.length (s +:+ t) = (String.length s + String.length t)%nat.
Proof. induction s as [|c s IH]; simpl; [done | by rewrite IH]. Qed.

Lemma string_app_inj_length (s1 s2 t1 t2 : string) :
  String.length t1 = String.length t2 →
  s1 +:+ t1 = s2 +:+ t2 → s1 = s2 ∧ t1 = t2.
Proof.
  intros Hlen Heq.
  assert (Hl : String.length s1 = String.length s2).
  { apply (f_equal String.length) in Heq. rewrite !string_app_length in Heq. lia. }
  clear Hlen. revert s2 Heq Hl.
  induction s1 as [|c s1 IH]; intros [|c' s2]; simpl; intros Heq Hl;
    try discriminate; [done |].
  injection Heq as -> Heq. destruct (IH s2 Heq) as [-> ->]; [lia | done].
Qed.

Lemma string_app_cons (c : ascii) (s t : string) :
  String c s +:+ t = String c (s +:+ t).
Proof. reflexivity. Qed.

Lemma prefix_spec (s t : string) :
  String.prefix s t = true ↔ ∃ post, t = s +:+ post.
Proof.
  revert t. induction s as [|c s IH]; intros [|c' t]; simpl.
  - split; [intros _; by exists "" | done].
  - split; [intros _; by exists (String c' t) | done].
  - split; [done | intros [post Hpost]; discriminate].
  - setoid_rewrite string_app_cons.
    destruct (Ascii.ascii_dec c c') as [->|Hne].
    + rewrite IH. split; intros [post Hpost]; exists post; congruence.
    + split; [done | intros [post Hpost]; congruence].
Qed.

Lemma contains_cons (s : string) (c : ascii) (t : string) :
  contains s (String c t) = String.prefix s (String c t) || contains s t.
Proof. reflexivity. Qed.

(** [contains] is the substring test. *)
Lemma contains_spec (s t : string) :
  contains s t = true ↔ ∃ pre post, t = pre +:+ s +:+ post.
Proof.
  induction t as [|c t IH].
  - change (contains s "") with (String.prefix s "" || false).
    rewrite orb_false_r, prefix_spec. split.
    + intros [post Hpost]. by exists "", post.
    + intros [[|c pre] [post Hpost]]; [by exists post | discriminate].
  - rewrite contains_cons, orb_true_iff, prefix_spec, IH. split.
    + intros [[post Hpost] | (pre & post & Hpost)].
      * by exists "", post.
      * exists (String c pre), post. by rewrite string_app_cons, Hpost.
    + intros [[|c' pre] [post Hpost]].
      * left. by exists post.
      * right. exists pre, post. rewrite string_app_cons in Hpost. congruence.
Qed.

Lemma contains_empty (t : string) : contains "" t = true.
Proof. apply contains_spec. by exists "", t. Qed.

(** ** groupby *)

Section groupby_facts.
Context {A : Type} (key : A → string).

Lemma groupby_from_concat (k : string) (l : list A) :
  (groupby_from key k l).1 ++ concat ((groupby_from key k l).2.*2) = l.
Proof.
  revert k. induction l as [|x xs IH]; intros k; simpl; [done |].
  case_decide.
  - specialize (IH k). destruct (groupby_from key k xs) as [g gs].
    simpl in *. by rewrite <- IH.
  - specialize (IH (key x)). destruct (groupby_from key (key x) xs) as [g gs].
    simpl in *. by rewrite <- IH.
Qed.

Lemma groupby_from_nonempty (k : string) (l : list A) :
  Forall (λ g, g ≠ []) ((groupby_from key k l).2.*2).
Proof.
  revert k. induction l as [|x xs IH]; intros k; simpl; [constructor |].
  case_decide.
  - specialize (IH k). by destruct (groupby_from key k xs) as [g gs].
  - specialize (IH (key x)). destruct (groupby_from key (key x) xs) as [g gs].
    simpl in *. by constructor.
Qed.

Lemma groupby_concat (l : list A) : concat ((groupby key l).*2) = l.
Proof.
  destruct l as [|x xs]; simpl; [done |].
  pose proof (groupby_from_concat (key x) xs) as Hc.
  destruct (groupby_from key (key x) xs) as [g gs]. simpl in *. by rewrite <- Hc.
Qed.

Lemma groupby_nonempty (l : list A) : Forall (λ g, g ≠ []) ((groupby key l).*2).
Proof.
  destruct l as [|x xs]; simpl; [constructor |].
  pose proof (groupby_from_nonempty (key x) xs) as Hc.
  destruct (groupby_from key (key x) xs) as [g gs]. simpl in *. by constructor.
Qed.

(** The numbering follows the pass: an element whose key is the key of
    the group being built takes its number, any other opens the next. *)
Lemma numbers_from_cons (k : string) (n : nat) (x : A) (xs : list A) :
  numbers_from key k n (x :: xs) =
  let n' := if decide (key x = k) then n else S n in
  n' :: numbers_from key (key x) n' xs.
Proof.
  unfold numbers_from. simpl. case_decide as Hk.
  - rewrite Hk. by destruct (groupby_from key k xs) as [g gs].
  - by destruct (groupby_from key (key x) xs) as [g gs].
Qed.

Lemma group_numbers_groupby (l : list A) (k : string) :
  head (key <$> l) = Some k →
  group_numbers 0 ((groupby key l).*2) = numbers_from key k 0 l.
Proof.
  destruct l as [|x xs]; simpl; [done |]. intros [= <-].
  rewrite numbers_from_cons. rewrite decide_True by done. simpl.
  unfold numbers_from. by destruct (groupby_from key (key x) xs) as [g gs].
Qed.

Lemma numbers_from_length (k : string) (n : nat) (l : list A) :
  length (numbers_from key k n l) = length l.
Proof.
  revert k n. induction l as [|x xs IH]; intros k n; [done |].
  rewrite numbers_from_cons. simpl. by rewrite IH.
Qed.

Lemma numbers_from_ge (k : string) (n : nat) (l : list A) (j m : nat) :
  numbers_from key k n l !! j = Some m → (n ≤ m)%nat.
Proof.
  revert k n j. induction l as [|x xs IH]; intros k n j; [done |].
  rewrite numbers_from_cons. destruct j as [|j]; simpl.
  - intros [= <-]. case_decide; lia.
  - intros Hj. apply IH in Hj. case_decide; lia.
Qed.

(** While the number has not moved, neither has the key. *)
Lemma numbers_from_same (k : string) (n : nat) (l : list A) (j j' : nat) (r : A) :
  numbers_from key k n l !! j = Some n →
  (j' ≤ j)%nat → l !! j' = Some r → key r = k.
Proof.
  revert k n j j'. induction l as [|x xs IH]; intros k n j j'; [done |].
  rewrite numbers_from_cons. simpl. case_decide as Hk.
  - destruct j' as [|j']; simpl; [by intros _ _ [= <-] |].
    destruct j as [|j]; simpl; intros Hj Hle Hr; [lia |].
    rewrite <- Hk. apply (IH _ n j j'); [exact Hj | lia | exact Hr].
  - destruct j as [|j]; simpl; [intros [= Hn]; lia |].
    intros Hj. apply numbers_from_ge in Hj. lia.
Qed.

(** Two neighbours have the same number exactly when their keys agree. *)
Lemma numbers_from_adjacent (k : string) (n : nat) (l : list A)
    (i : nat) (r1 r2 : A) (a b : nat) :
  l !! i = Some r1 → l !! S i = Some r2 →
  numbers_from key k n l !! i = Some a →
  numbers_from key k n l !! S i = Some b →
  a = b ↔ key r1 = key r2.
Proof.
  revert k n i. induction l as [|x xs IH]; intros k n i; [done |].
  rewrite numbers_from_cons. destruct i as [|i]; simpl.
  - intros [= ->]. destruct xs as [|y ys]; [done |]. simpl. intros [= ->].
    rewrite numbers_from_cons. simpl. intros [= <-] [= <-].
    destruct (decide (key r2 = key r1)) as [Heq|Hne]; [done |].
    split; [lia | congruence].
  - apply IH.
Qed.

(** Whatever lies between two elements of one number has their key. *)
Lemma numbers_from_between (k : string) (n : nat) (l : list A)
    (i j h : nat) (a b : A) (g : nat) :
  (i < j ≤ h)%nat → l !! i = Some a → l !! j = Some b →
  numbers_from key k n l !! i = Some g →
  numbers_from key k n l !! h = Some g →
  key b = key a.
Proof.
  revert k n i j h. induction l as [|x xs IH]; intros k n i j h; [done |].
  rewrite numbers_from_cons. destruct i as [|i]; simpl.
  - intros Hlt [= ->]. destruct j as [|j]; [lia |]. destruct h as [|h]; [lia |].
    simpl. intros Hb [= <-] Hh.
    apply (numbers_from_same _ _ _ h j _ Hh); [lia | exact Hb].
  - intros Hlt. destruct j as [|j]; [lia |]. destruct h as [|h]; [lia |].
    simpl. apply IH. lia.
Qed.

Lemma group_numbers_bound (n : nat) (groups : list (list A)) (i g : nat) :
  group_numbers n groups !! i = Some g → (n ≤ g < n + length groups)%nat.
Proof.
  revert n i. induction groups as [|grp groups IH]; intros n i; simpl; [done |].
  intros Hi. apply lookup_app_Some in Hi as [Hi | [_ Hi]].
  - apply lookup_replicate in Hi as [-> _]. lia.
  - apply IH in Hi. lia.
Qed.

(** The number of an element is the position of a group it is a member of. *)
Lemma group_numbers_member (n : nat) (groups : list (list A)) (i g : nat) (x : A) :
  concat groups !! i = Some x → group_numbers n groups !! i = Some g →
  ∃ run, groups !! (g - n)%nat = Some run ∧ x ∈ run.
Proof.
  revert n i. induction groups as [|grp groups IH]; intros n i; simpl; [done |].
  intros Hx Hg. apply lookup_app_Some in Hg as [Hg | [Hlen Hg]].
  - apply lookup_replicate in Hg as [-> Hi]. rewrite lookup_app_l in Hx by done.
    exists grp. rewrite Nat.sub_diag. split; [done |].
    by eapply list_elem_of_lookup_2.
  - rewrite length_replicate in Hlen, Hg.
    rewrite lookup_app_r in Hx by done.
    pose proof (group_numbers_bound _ _ _ _ Hg) as Hbound.
    destruct (IH _ _ Hx Hg) as (run & Hrun & Hin).
    exists run. split; [|done].
    replace (g - n)%nat with (S (g - S n)) by lia. done.
Qed.

(** Every member of a group has the key of the group. *)
Lemma groupby_from_keys (k : string) (l : list A) :
  Forall (λ r, key r = k) (groupby_from key k l).1 ∧
  Forall (λ kg, Forall (λ r, key r = kg.1) kg.2) (groupby_from key k l).2.
Proof.
  revert k. induction l as [|x xs IH]; intros k; simpl; [by split |].
  case_decide as Hk.
  - destruct (IH k) as [IH1 IH2]. destruct (groupby_from key k xs) as [g gs].
    simpl in *. split; [by constructor | done].
  - destruct (IH (key x)) as [IH1 IH2].
    destruct (groupby_from key (key x) xs) as [g gs]. simpl in *.
    split; [constructor |]. constructor; [|done]. simpl. by constructor.
Qed.

Lemma groupby_keys (l : list A) :
  Forall (λ kg, Forall (λ r, key r = kg.1) kg.2) (groupby key l).
Proof.
  destruct l as [|x xs]; simpl; [constructor |].
  destruct (groupby_from_keys (key x) xs) as [H1 H2].
  destruct (groupby_from key (key x) xs) as [g gs]. simpl in *.
  constructor; [|done]. simpl. by constructor.
Qed.
End groupby_facts.

(** ** Exceptions *)

Lemma comprehension_Ok {A B : Type} (f : A → result B) (l : list A) (ys : list B) :
  comprehension f l = Ok ys ↔ Forall2 (λ x y, f x = Ok y) l ys.
Proof.
  revert ys. induction l as [|x xs IH]; intros ys; simpl.
  - split; [intros [= <-]; constructor | by inversion 1].
  - destruct (f x) as [y|e] eqn:Hfx; simpl.
    + destruct (comprehension f xs) as [zs|e] eqn:Hxs; simpl.
      * split.
        -- intros [= <-]. constructor; [done | by apply IH].
        -- inversion 1 as [|? y' ? zs' Hy Hzs]; subst.
           apply IH in Hzs. unfold mret, result_ret. congruence.
      * split; [done |]. inversion 1 as [|? y' ? zs' Hy Hzs]; subst.
        apply IH in Hzs. discriminate.
    + split; [done |]. inversion 1; congruence.
Qed.

(** ** The journal aggregator *)

Lemma keyfunc_eq (r1 r2 : UsnRecord) :
  file_reference_number r1 = file_reference_number r2 →
  timestamp r1 = timestamp r2 → keyfunc r1 = keyfunc r2.
Proof. unfold keyfunc. by intros -> ->. Qed.

Lemma keyfunc_inj_length (r1 r2 : UsnRecord) :
  String.length (timestamp r1) = String.length (timestamp r2) →
  keyfunc r1 = keyfunc r2 →
  file_reference_number r1 = file_reference_number r2 ∧ timestamp r1 = timestamp r2.
Proof.
  unfold keyfunc. intros Hlen Hkey.
  destruct (string_app_inj_length _ _ _ _ Hlen Hkey) as [Hstr Hts].
  split; [by apply str_inj | done].
Qed.

Lemma event_groups_concat (journal : list UsnRecord) :
  concat (event_groups journal) = journal.
Proof. apply groupby_concat. Qed.

Lemma event_groups_nonempty (journal : list UsnRecord) :
  Forall (λ g, g ≠ []) (event_groups journal).
Proof. apply groupby_nonempty. Qed.

Lemma group_of_numbers (journal : list UsnRecord) (k : string) :
  head (keyfunc <$> journal) = Some k →
  group_of journal = numbers_from keyfunc k 0 journal.
Proof. apply group_numbers_groupby. Qed.

Lemma group_of_length (journal : list UsnRecord) :
  length (group_of journal) = length journal.
Proof.
  destruct journal as [|r rs]; [done |].
  rewrite (group_of_numbers _ (keyfunc r)) by done. apply numbers_from_length.
Qed.

Lemma group_of_bound (journal : list UsnRecord) (i g : nat) :
  group_of journal !! i = Some g → (g < length (event_groups journal))%nat.
Proof. intros Hg. apply group_numbers_bound in Hg. lia. Qed.

Lemma group_of_member (journal : list UsnRecord) (i g : nat) (r : UsnRecord) :
  journal !! i = Some r → group_of journal !! i = Some g →
  ∃ run, event_groups journal !! g = Some run ∧ r ∈ run.
Proof.
  intros Hr Hg. rewrite <- (event_groups_concat journal) in Hr at 1.
  destruct (group_numbers_member _ _ _ _ _ Hr Hg) as (run & Hrun & Hin).
  rewrite Nat.sub_0_r in Hrun. eauto.
Qed.

Lemma group_of_adjacent (journal : list UsnRecord) (i : nat)
    (r1 r2 : UsnRecord) (g1 g2 : nat) :
  journal !! i = Some r1 → journal !! S i = Some r2 →
  group_of journal !! i = Some g1 → group_of journal !! S i = Some g2 →
  g1 = g2 ↔ keyfunc r1 = keyfunc r2.
Proof.
  destruct journal as [|r rs]; [done |].
  rewrite (group_of_numbers _ (keyfunc r)) by done.
  apply numbers_from_adjacent.
Qed.

Lemma group_of_between (journal : list UsnRecord) (i j h : nat)
    (a b : UsnRecord) (g : nat) :
  (i < j ≤ h)%nat → journal !! i = Some a → journal !! j = Some b →
  group_of journal !! i = Some g → group_of journal !! h = Some g →
  keyfunc b = keyfunc a.
Proof.
  destruct journal as [|r rs]; [done |].
  rewrite (group_of_numbers _ (keyfunc r)) by done.
  apply numbers_from_between.
Qed.

Section aggregator_facts.
Variable list_of_set : list string → list string.
Hypothesis list_of_set_NoDup : ∀ l, NoDup (list_of_set l).
Hypothesis list_of_set_elem : ∀ l x, x ∈ list_of_set l ↔ x ∈ l.

Lemma parse_journal_Ok (journal : list UsnRecord) :
  ∃ evs, parse_journal list_of_set journal = Ok evs ∧
         Forall2 (λ run ev, journal_event list_of_set run = Ok ev)
                 (event_groups journal) evs.
Proof.
  unfold parse_journal. setoid_rewrite comprehension_Ok.
  assert (∃ evs, Forall2 (λ run ev, journal_event list_of_set run = Ok ev)
                         (event_groups journal) evs) as [evs Hevs]; [|by exists evs].
  induction (event_groups_nonempty journal) as [|run runs Hrun _ [evs IH]].
  - exists []. constructor.
  - destruct run as [|e0 rest]; [done |].
    eexists (_ :: evs). constructor; [reflexivity | exact IH].
Qed.

Lemma elem_of_chain (f : UsnRecord → list string) (run : list UsnRecord) (c : string) :
  c ∈ chain (f <$> run) ↔ ∃ r, r ∈ run ∧ c ∈ f r.
Proof.
  unfold chain. induction run as [|r0 run IH]; simpl.
  - split; [by intros ?%elem_of_nil | by intros (r & ?%elem_of_nil & _)].
  - rewrite elem_of_app, IH. split.
    + intros [Hc | (r & Hr & Hc)].
      * exists r0. split; [left | done].
      * exists r. split; [by right | done].
    + intros (r & Hr & Hc). apply elem_of_cons in Hr as [-> | Hr]; eauto.
Qed.

Lemma journal_event_cons (first : UsnRecord) (rest : list UsnRecord) :
  ∃ ev, journal_event list_of_set (first :: rest) = Ok ev ∧
    inode ev = file_reference_number first ∧
    name ev = file_name first ∧
    jrnl_timestamp ev = timestamp first ∧
    NoDup (changes ev) ∧ NoDup (attributes ev) ∧
    (∀ c, c ∈ changes ev ↔ ∃ r, r ∈ first :: rest ∧ c ∈ reasons r) ∧
    (∀ a, a ∈ attributes ev ↔ ∃ r, r ∈ first :: rest ∧ a ∈ file_attributes r).
Proof.
  eexists. split; [reflexivity |]. simpl. split_and!; try done.
  - intros c. rewrite list_of_set_elem. apply (elem_of_chain reasons (first :: rest)).
  - intros a. rewrite list_of_set_elem.
    apply (elem_of_chain file_attributes (first :: rest)).
Qed.

Lemma event_groups_keys (journal : list UsnRecord) :
  Forall (λ run, ∃ first rest, run = first :: rest ∧
                   ∀ r, r ∈ run → keyfunc r = keyfunc first)
         (event_groups journal).
Proof.
  unfold event_groups. apply Forall_fmap.
  pose proof (groupby_keys keyfunc journal) as Hkeys.
  pose proof (groupby_nonempty keyfunc journal) as Hne.
  apply Forall_fmap in Hne.
  induction Hkeys as [|[k run] gs Hrun _ IH]; [constructor |].
  apply Forall_cons in Hne as [Hne1 Hne2]. constructor; [|by apply IH].
  simpl in *. destruct run as [|first rest]; [done |].
  exists first, rest. split; [done |]. intros r Hr.
  rewrite Forall_forall in Hrun.
  rewrite (Hrun r Hr). symmetry. apply Hrun. left.
Qed.

(** X16.  [parse_journal] cuts the journal into consecutive, non-empty
    groups, [group_of] numbers for each record a group it is a member of, and
    two adjacent records are placed in the same group exactly when the
    strings [str(file_reference_number) + timestamp] of the two are equal.
    Records with the same identifier and the same timestamp have equal
    strings, and the converse holds for two timestamps of one length: two
    adjacent records with timestamps of one length are placed in the same
    group exactly when they have the same identifier and the same
    timestamp. *)
Theorem X16_adjacent_same_group_iff_key_string (journal : list UsnRecord) :
  concat (event_groups journal) = journal ∧
  Forall (λ g, g ≠ []) (event_groups journal) ∧
  length (group_of journal) = length journal ∧
  (∀ i g r,
     journal !! i = Some r → group_of journal !! i = Some g →
     ∃ run, event_groups journal !! g = Some run ∧ r ∈ run) ∧
  (∀ i r1 r2 g1 g2,
     journal !! i = Some r1 → journal !! S i = Some r2 →
     group_of journal !! i = Some g1 → group_of journal !! S i = Some g2 →
     g1 = g2 ↔ keyfunc r1 = keyfunc r2) ∧
  (∀ r1 r2 : UsnRecord,
     file_reference_number r1 = file_reference_number r2 →
     timestamp r1 = timestamp r2 → keyfunc r1 = keyfunc r2) ∧
  (∀ r1 r2 : UsnRecord,
     String.length (timestamp r1) = String.length (timestamp r2) →
     keyfunc r1 = keyfunc r2 →
     file_reference_number r1 = file_reference_number r2 ∧
     timestamp r1 = timestamp r2) ∧
  (∀ i r1 r2 g1 g2,
     journal !! i = Some r1 → journal !! S i = Some r2 →
     group_of journal !! i = Some g1 → group_of journal !! S i = Some g2 →
     String.length (timestamp r1) = String.length (timestamp r2) →
     g1 = g2 ↔
     file_reference_number r1 = file_reference_number r2 ∧
     timestamp r1 = timestamp r2).
Proof.
  split_and!.
  - apply event_groups_concat.
  - apply event_groups_nonempty.
  - apply group_of_length.
  - apply group_of_member.
  - apply group_of_adjacent.
  - apply keyfunc_eq.
  - apply keyfunc_inj_length.
  - intros i r1 r2 g1 g2 H1 H2 Hg1 Hg2 Hlen.
    rewrite (group_of_adjacent journal i r1 r2 g1 g2 H1 H2 Hg1 Hg2). split.
    + by apply keyfunc_inj_length.
    + intros [Hid Hts]. by apply keyfunc_eq.
Qed.

(** Two records of the journal with, somewhere between them, a record of
    another key than the first are placed in two different groups, and
    [parse_journal] returns a separate [JrnlEvent] for each. *)
Lemma separated_by_other_key_not_merged (journal : list UsnRecord)
    (i j h : nat) (a b c : UsnRecord) :
  (i < j < h)%nat →
  journal !! i = Some a → journal !! j = Some b → journal !! h = Some c →
  keyfunc b ≠ keyfunc a →
  ∃ gi gh evs eva evc,
    group_of journal !! i = Some gi ∧ group_of journal !! h = Some gh ∧
    gi ≠ gh ∧
    parse_journal list_of_set journal = Ok evs ∧
    evs !! gi = Some eva ∧ evs !! gh = Some evc.
Proof.
  intros Hlt Ha Hb Hc Hne.
  destruct (lookup_lt_is_Some_2 (group_of journal) i) as [gi Hgi].
  { rewrite group_of_length. by eapply lookup_lt_Some. }
  destruct (lookup_lt_is_Some_2 (group_of journal) h) as [gh Hgh].
  { rewrite group_of_length. by eapply lookup_lt_Some. }
  destruct (parse_journal_Ok journal) as (evs & Hevs & Hall).
  apply Forall2_length in Hall.
  destruct (lookup_lt_is_Some_2 evs gi) as [eva Heva].
  { rewrite <- Hall. by eapply group_of_bound. }
  destruct (lookup_lt_is_Some_2 evs gh) as [evc Hevc].
  { rewrite <- Hall. by eapply group_of_bound. }
  exists gi, gh, evs, eva, evc. split_and!; try done.
  intros ->. apply Hne.
  apply (group_of_between journal i j h a b gh); [lia | done..].
Qed.

(** X17.  The groups [parse_journal] forms are consecutive pieces of the
    journal, none empty, and each becomes one [JrnlEvent], in the order of
    the groups.  The records of a group share the key string of its first
    record; the event has the identifier, the name and the timestamp of
    that first record; its [changes] and [attributes] have no duplicates and
    hold exactly the reasons and the file attributes that occur in some
    record of the group. *)
Theorem X17_one_event_for_each_group (journal : list UsnRecord) :
  concat (event_groups journal) = journal ∧
  Forall (λ run, run ≠ []) (event_groups journal) ∧
  ∃ evs, parse_journal list_of_set journal = Ok evs ∧
    Forall2 (λ run ev,
      journal_event list_of_set run = Ok ev ∧
      ∃ first rest, run = first :: rest ∧
        (∀ r, r ∈ run → keyfunc r = keyfunc first) ∧
        inode ev = file_reference_number first ∧
        name ev = file_name first ∧
        jrnl_timestamp ev = timestamp first ∧
        NoDup (changes ev) ∧ NoDup (attributes ev) ∧
        (∀ c, c ∈ changes ev ↔ ∃ r, r ∈ run ∧ c ∈ reasons r) ∧
        (∀ a, a ∈ attributes ev ↔ ∃ r, r ∈ run ∧ a ∈ file_attributes r))
      (event_groups journal) evs.
Proof.
  split; [apply event_groups_concat |].
  split; [apply event_groups_nonempty |].
  destruct (parse_journal_Ok journal) as (evs & Hevs & Hall).
  exists evs. split; [done |].
  pose proof (event_groups_keys journal) as Hkeys. clear Hevs.
  induction Hall as [|run ev runs evs' Hev Hall IH]; [constructor |].
  apply Forall_cons in Hkeys as [(first & rest & -> & Hkey) Hkeys].
  constructor; [|by apply IH]. split; [done |].
  exists first, rest. split; [done |]. split; [done |].
  destruct (journal_event_cons first rest) as (ev' & Hev' & Hfields).
  rewrite Hev in Hev'. injection Hev' as <-. exact Hfields.
Qed.

End aggregator_facts.

(** C3.  The journal of the two adjacent records [rec_1_23] and
    [rec_12_3], which differ in identifier and in timestamp, so that the run
    of the pair of [rec_1_23] is that record alone.  [parse_journal] returns
    one event for both: it has the identifier and the timestamp of
    [rec_1_23], and among its [changes] and [attributes] a reason and an
    attribute that only [rec_12_3] has. *)
Theorem C3_collision_event_takes_foreign_reasons
    (list_of_set : list string → list string) :
  (∀ l x, x ∈ list_of_set l ↔ x ∈ l) →
  ∃ ev, parse_journal list_of_set [rec_1_23; rec_12_3] = Ok [ev] ∧
    (file_reference_number rec_12_3, timestamp rec_12_3) ≠
    (file_reference_number rec_1_23, timestamp rec_1_23) ∧
    inode ev = file_reference_number rec_1_23 ∧
    jrnl_timestamp ev = timestamp rec_1_23 ∧
    ("RENAME" ∈ changes ev) ∧ ("RENAME" ∉ reasons rec_1_23) ∧
    ("HIDDEN" ∈ attributes ev) ∧ ("HIDDEN" ∉ file_attributes rec_1_23).
Proof.
  intros list_of_set_elem.
  eexists. split; [reflexivity |]. simpl.
  split_and!; [discriminate | reflexivity | reflexivity | | | |].
  - apply list_of_set_elem. right. left.
  - intros H. apply elem_of_cons in H as [H|H];
      [discriminate H | by apply elem_of_nil in H].
  - apply list_of_set_elem. right. left.
  - intros H. apply elem_of_cons in H as [H|H];
      [discriminate H | by apply elem_of_nil in H].
Qed.


(** Scenario A: the two records of one change aggregate to one event. *)
Example scenario_A :
  parse_journal sample_order [rec_foo_extend; rec_foo_close] =
  Ok [mkJrnlEvent 5 "foo.txt" "2016-09-05 10:00:00" ["DATA_EXTEND"; "CLOSE"] ["ARCHIVE"]].
Proof. reflexivity. Qed.

(** The key is one string: identifier 1 at timestamp [23] and identifier 12
    at timestamp [3] both have key [123]. *)
Example keyfunc_collision : keyfunc rec_1_23 = keyfunc rec_12_3.
Proof. reflexivity. Qed.

(** C1.  The journal of the two adjacent records [rec_1_23] and
    [rec_12_3], in the lexical order of their timestamps: the two differ in
    identifier and in timestamp, their keys are one string, and
    [parse_journal] places both in one group. *)
Theorem C1_collision_merges_distinct_records :
  lexical_le (timestamp rec_1_23) (timestamp rec_12_3) ∧
  file_reference_number rec_1_23 ≠ file_reference_number rec_12_3 ∧
  timestamp rec_1_23 ≠ timestamp rec_12_3 ∧
  keyfunc rec_1_23 = keyfunc rec_12_3 ∧
  event_groups [rec_1_23; rec_12_3] = [[rec_1_23; rec_12_3]] ∧
  group_of [rec_1_23; rec_12_3] = [0; 0]%nat.
Proof. split_and!; (reflexivity || (vm_compute; discriminate)). Qed.

Lemma X16_witness_adjacent :
  (0 = 0)%nat ↔ keyfunc rec_foo_extend = keyfunc rec_foo_close.
Proof.
  apply (proj1 (proj2 (proj2 (proj2 (proj2
           (X16_adjacent_same_group_iff_key_string
              [rec_foo_extend; rec_foo_close; rec_bar_close]))))) 0%nat);
    reflexivity.
Defined.

Example merged_across_collision :
  parse_journal sample_order [rec_1_23; rec_12_3; rec_1_23] =
  Ok [mkJrnlEvent 1 "a.txt" "23" ["RENAME"; "CLOSE"] ["HIDDEN"; "ARCHIVE"]].
Proof. reflexivity. Qed.

Lemma lexical_le_antisym (s t : string) : lexical_le s t → lexical_le t s → s = t.
Proof.
  unfold lexical_le. intros Hst Hts. apply String.compare_eq_iff.
  rewrite String.compare_antisym in Hts.
  by destruct (s ?= t)%string.
Qed.

(** C2.  In a journal in time order, two records with the same identifier
    and the same timestamp that have between them a record of another
    identifier or another timestamp are placed in two different groups, and
    [parse_journal] returns a separate [JrnlEvent] for each.  Time order is
    any antisymmetric relation on timestamps in which no record comes before
    an earlier one. *)
Theorem C2_separated_equal_records_not_merged
    (list_of_set : list string → list string) (R : string → string → Prop)
    (journal : list UsnRecord) (i j h : nat) (a b c : UsnRecord) :
  (∀ s t, R s t → R t s → s = t) →
  (∀ m n x y, (m < n)%nat → journal !! m = Some x → journal !! n = Some y →
              R (timestamp x) (timestamp y)) →
  (i < j < h)%nat →
  journal !! i = Some a → journal !! j = Some b → journal !! h = Some c →
  file_reference_number a = file_reference_number c →
  timestamp a = timestamp c →
  ¬ (file_reference_number b = file_reference_number a ∧
     timestamp b = timestamp a) →
  ∃ gi gh evs eva evc,
    group_of journal !! i = Some gi ∧ group_of journal !! h = Some gh ∧
    gi ≠ gh ∧
    parse_journal list_of_set journal = Ok evs ∧
    evs !! gi = Some eva ∧ evs !! gh = Some evc.
Proof.
  intros Hanti Hsorted Hlt Ha Hb Hc Hid Hts Hother.
  assert (Hab : timestamp a = timestamp b).
  { apply Hanti.
    - apply (Hsorted i j a b); [lia | done | done].
    - rewrite Hts. apply (Hsorted j h b c); [lia | done | done]. }
  apply (separated_by_other_key_not_merged list_of_set journal i j h a b c);
    try done.
  intros Hkey. apply Hother.
  apply keyfunc_inj_length; [by rewrite Hab | done].
Qed.

Lemma C2_witness_time_ordered :
  ∃ gi gh evs eva evc,
    group_of [rec_foo_extend; rec_bar_close; rec_foo_close; rec_baz_later] !! 0%nat = Some gi ∧
    group_of [rec_foo_extend; rec_bar_close; rec_foo_close; rec_baz_later] !! 2%nat = Some gh ∧
    gi ≠ gh ∧
    parse_journal sample_order
      [rec_foo_extend; rec_bar_close; rec_foo_close; rec_baz_later] = Ok evs ∧
    evs !! gi = Some eva ∧ evs !! gh = Some evc.
Proof.
  apply (C2_separated_equal_records_not_merged sample_order lexical_le
           [rec_foo_extend; rec_bar_close; rec_foo_close; rec_baz_later] 0 1 2
           rec_foo_extend rec_bar_close rec_foo_close).
  - exact lexical_le_antisym.
  - intros [|[|[|[|m]]]] [|[|[|[|n]]]] x y Hmn Hx Hy; simplify_eq/=;
      try lia; vm_compute; discriminate.
  - lia.
  - reflexivity.
  - reflexivity.
  - reflexivity.
  - reflexivity.
  - reflexivity.
  - intros [Hid _]. discriminate Hid.
Defined.

Lemma C3_witness_collision :
  ∃ ev, parse_journal sample_order [rec_1_23; rec_12_3] = Ok [ev] ∧
    (file_reference_number rec_12_3, timestamp rec_12_3) ≠
    (file_reference_number rec_1_23, timestamp rec_1_23) ∧
    inode ev = file_reference_number rec_1_23 ∧
    jrnl_timestamp ev = timestamp rec_1_23 ∧
    ("RENAME" ∈ changes ev) ∧ ("RENAME" ∉ reasons rec_1_23) ∧
    ("HIDDEN" ∈ attributes ev) ∧ ("HIDDEN" ∉ file_attributes rec_1_23).
Proof.
  apply (C3_collision_event_takes_foreign_reasons sample_order
           (λ l x, elem_of_remove_dups l x)).
Defined.

Lemma X17_witness_groups :
  concat (event_groups [rec_foo_extend; rec_foo_close; rec_bar_close]) =
  [rec_foo_extend; rec_foo_close; rec_bar_close] ∧
  Forall (λ run, run ≠ []) (event_groups [rec_foo_extend; rec_foo_close; rec_bar_close]) ∧
  ∃ evs,
    parse_journal sample_order [rec_foo_extend; rec_foo_close; rec_bar_close] = Ok evs ∧
    Forall2 (λ run ev,
      journal_event sample_order run = Ok ev ∧
      ∃ first rest, run = first :: rest ∧
        (∀ r, r ∈ run → keyfunc r = keyfunc first) ∧
        inode ev = file_reference_number first ∧
        name ev = file_name first ∧
        jrnl_timestamp ev = timestamp first ∧
        NoDup (changes ev) ∧ NoDup (attributes ev) ∧
        (∀ c, c ∈ changes ev ↔ ∃ r, r ∈ run ∧ c ∈ reasons r) ∧
        (∀ a, a ∈ attributes ev ↔ ∃ r, r ∈ run ∧ a ∈ file_attributes r))
      (event_groups [rec_foo_extend; rec_foo_close; rec_bar_close]) evs.
Proof.
  apply (X17_one_event_for_each_group sample_order
           (λ l, NoDup_remove_dups l) (λ l x, elem_of_remove_dups l x)
           [rec_foo_extend; rec_foo_close; rec_bar_close]).
Defined.

(** ** The directory index *)

Section index_facts.
Variable fs_path : string → string.

Lemma getitem_fst (content : gmap Z (list Dirent)) (k : Z) :
  (getitem content k).1 = default [] (content !! k).
Proof. unfold getitem. by destruct (content !! k). Qed.

Lemma getitem_snd_lookup (content : gmap Z (list Dirent)) (k k' : Z) :
  (getitem content k).2 !! k' =
  match content !! k' with
  | Some dirents => Some dirents
  | None => if decide (k' = k) then Some [] else None
  end.
Proof.
  unfold getitem. destruct (content !! k) as [dirents|] eqn:Hk; simpl.
  - destruct (content !! k') eqn:Hk'; [done |]. case_decide; congruence.
  - destruct (decide (k' = k)) as [->|Hne].
    + by rewrite lookup_insert_eq, Hk.
    + rewrite lookup_insert_ne by done. by destruct (content !! k').
Qed.

Lemma getitem_snd_default (content : gmap Z (list Dirent)) (k k' : Z) :
  default [] ((getitem content k).2 !! k') = default [] (content !! k').
Proof.
  rewrite getitem_snd_lookup. destruct (content !! k'); [done |].
  by case_decide.
Qed.

Lemma append_insert (content : gmap Z (list Dirent)) (k : Z) (d : Dirent) :
  append content k d = <[k := default [] (content !! k) ++ [d]]> content.
Proof.
  unfold append, getitem. destruct (content !! k); simpl; [done |].
  apply insert_insert_eq.
Qed.

Lemma visit_append (content : gmap Z (list Dirent)) (dirent : TskDirent) :
  visit fs_path content dirent =
  append content (tsk_inode dirent) (dirent_of fs_path dirent).
Proof. reflexivity. Qed.

Lemma visit_lookup (content : gmap Z (list Dirent)) (dirent : TskDirent) (k : Z) :
  visit fs_path content dirent !! k =
  if decide (tsk_inode dirent = k)
  then Some (default [] (content !! k) ++ [dirent_of fs_path dirent])
  else content !! k.
Proof.
  rewrite visit_append, append_insert. case_decide as Hk.
  - subst k. apply lookup_insert_eq.
  - by apply lookup_insert_ne.
Qed.

(** The loop from any index: the entries of [k] grow by the entries the
    walk has for [k], in the order of the walk. *)
Lemma foldl_visit_default (walk : list TskDirent) (content : gmap Z (list Dirent))
    (k : Z) :
  default [] (foldl (visit fs_path) content walk !! k) =
  default [] (content !! k) ++
  (dirent_of fs_path <$> filter (λ e, tsk_inode e = k) walk).
Proof.
  revert content. induction walk as [|e walk IH]; intros content; simpl.
  - by rewrite app_nil_r.
  - rewrite IH, visit_lookup, filter_cons. case_decide as Hk; simpl.
    + by rewrite <- app_assoc.
    + done.
Qed.

Lemma foldl_visit_None (walk : list TskDirent) (content : gmap Z (list Dirent))
    (k : Z) :
  foldl (visit fs_path) content walk !! k = None ↔
  content !! k = None ∧ filter (λ e, tsk_inode e = k) walk = [].
Proof.
  revert content. induction walk as [|e walk IH]; intros content; simpl.
  - rewrite filter_nil. tauto.
  - rewrite IH, visit_lookup, filter_cons. case_decide as Hk; [|tauto].
    split; intros [Hnone Hnil]; discriminate.
Qed.

(** C4.  After the walk the index holds, for every identifier, the entries
    built from the walk entries of that identifier, one for each and in the
    order of the walk; an identifier is absent exactly when the walk never
    had it; and going on with the walk only adds entries at the end. *)
Theorem C4_visit_filesystem_keeps_every_entry (walk : list TskDirent) (k : Z) :
  let observed := filter (λ e, tsk_inode e = k) walk in
  default [] (visit_filesystem fs_path walk !! k) = (dirent_of fs_path <$> observed) ∧
  length (default [] (visit_filesystem fs_path walk !! k)) = length observed ∧
  (visit_filesystem fs_path walk !! k = None ↔ observed = []) ∧
  (∀ more, default [] (visit_filesystem fs_path walk !! k) `prefix_of`
           default [] (visit_filesystem fs_path (walk ++ more) !! k)).
Proof.
  unfold visit_filesystem. simpl.
  assert (Heq : default [] (foldl (visit fs_path) ∅ walk !! k) =
                dirent_of fs_path <$> filter (λ e, tsk_inode e = k) walk).
  { by rewrite foldl_visit_default, lookup_empty. }
  split_and!.
  - exact Heq.
  - by rewrite Heq, length_fmap.
  - rewrite foldl_visit_None, lookup_empty. tauto.
  - intros more. rewrite foldl_app, (foldl_visit_default more). by eexists.
Qed.
End index_facts.

Example visit_filesystem_sample :
  visit_filesystem (λ p, p) sample_walk = sample_content.
Proof. apply map_eq. intros k. by vm_compute. Qed.

(** ** The correlator *)

Lemma first_dirent_Ok (name : string) (dirents : list Dirent) (d : Dirent) :
  first_dirent name dirents = Ok d ↔
  ∃ before after, dirents = before ++ d :: after ∧
    contains name (path d) = true ∧
    Forall (λ d', contains name (path d') = false) before.
Proof.
  induction dirents as [|d0 dirents IH]; simpl.
  - split; [done |]. intros ([|??] & after & Heq & _); discriminate.
  - destruct (contains name (path d0)) eqn:Hd0.
    + split.
      * intros [= <-]. exists [], dirents. split_and!; [done | done | constructor].
      * intros ([|d1 before] & after & Heq & Hd & Hbefore); simplify_eq/=; [done |].
        apply Forall_cons in Hbefore as [Hd1 _]. congruence.
    + rewrite IH. split.
      * intros (before & after & -> & Hd & Hbefore).
        exists (d0 :: before), after. split_and!; [done | done | by constructor].
      * intros ([|d1 before] & after & Heq & Hd & Hbefore); simplify_eq/=;
          [congruence |].
        apply Forall_cons in Hbefore as [_ Hbefore]. eauto.
Qed.

Lemma first_dirent_Raise (name : string) (dirents : list Dirent) :
  Forall (λ d, contains name (path d) = false) dirents →
  first_dirent name dirents = Raise (LookupError "Dirent not found").
Proof.
  induction 1 as [|d dirents Hd _ IH]; simpl; [done |]. by rewrite Hd.
Qed.

Lemma first_dirent_elem (name : string) (dirents : list Dirent) (d : Dirent) :
  first_dirent name dirents = Ok d → d ∈ dirents.
Proof.
  intros (before & after & -> & _)%first_dirent_Ok. set_solver.
Qed.

Lemma contains_true (s t : string) : contains s t = true ↔ substring s t.
Proof. apply contains_spec. Qed.

Lemma contains_false (s t : string) : contains s t = false ↔ ¬ substring s t.
Proof. rewrite <- contains_true. by destruct (contains s t). Qed.

Lemma lookup_dirent_fst (event : JrnlEvent) (content : gmap Z (list Dirent)) :
  (lookup_dirent event content).1 =
  first_dirent (name event) (default [] (content !! inode event)).
Proof.
  unfold lookup_dirent. rewrite <- getitem_fst.
  by destruct (getitem content (inode event)).
Qed.

Lemma lookup_dirent_snd (event : JrnlEvent) (content : gmap Z (list Dirent)) :
  (lookup_dirent event content).2 = (getitem content (inode event)).2.
Proof. unfold lookup_dirent. by destruct (getitem content (inode event)). Qed.

(** [yielded] reads an index through the entries of the identifiers only. *)
Lemma yielded_ext (content content' : gmap Z (list Dirent)) (event : JrnlEvent) :
  (∀ k, default [] (content' !! k) = default [] (content !! k)) →
  yielded content' event = yielded content event.
Proof. intros Hsame. unfold yielded. by rewrite Hsame. Qed.

(** One turn of the loop. *)
Lemma generate_timeline_cons (event : JrnlEvent) (usnjrnl : list JrnlEvent)
    (content : gmap Z (list Dirent)) :
  generate_timeline (event :: usnjrnl) content =
  let rest := generate_timeline usnjrnl (getitem content (inode event)).2 in
  (option_list (yielded content event) ++ rest.1, rest.2).
Proof.
  simpl. pose proof (lookup_dirent_fst event content) as H1.
  pose proof (lookup_dirent_snd event content) as H2. unfold yielded.
  destruct (lookup_dirent event content) as [[dirent|e] content']; simpl in *;
    subst content'; rewrite <- H1.
  - by destruct (generate_timeline usnjrnl _).
  - by destruct (generate_timeline usnjrnl _).
Qed.

(** The index the generator leaves: what it found, with every identifier it
    looked up and did not find bound to the empty list. *)
Lemma generate_timeline_snd (usnjrnl : list JrnlEvent)
    (content : gmap Z (list Dirent)) (k : Z) :
  (generate_timeline usnjrnl content).2 !! k =
  match content !! k with
  | Some dirents => Some dirents
  | None => if decide (k ∈ inode <$> usnjrnl) then Some [] else None
  end.
Proof.
  revert content. induction usnjrnl as [|event usnjrnl IH]; intros content.
  - cbn [generate_timeline snd]. destruct (content !! k); [done |].
    case_decide as Hin; [by apply elem_of_nil in Hin | done].
  - rewrite generate_timeline_cons. cbn [snd]. rewrite IH, getitem_snd_lookup.
    destruct (content !! k); [done |]. rewrite fmap_cons.
    destruct (decide (k = inode event)) as [->|Hne].
    + rewrite decide_True; [done | left].
    + destruct (decide (k ∈ inode <$> usnjrnl)) as [Hin|Hnin].
      * rewrite decide_True; [done | by right].
      * rewrite decide_False; [done |]. by intros [?|?]%elem_of_cons.
Qed.

Lemma generate_timeline_default (usnjrnl : list JrnlEvent)
    (content : gmap Z (list Dirent)) (k : Z) :
  default [] ((generate_timeline usnjrnl content).2 !! k) = default [] (content !! k).
Proof.
  rewrite generate_timeline_snd. destruct (content !! k); [done |]. by case_decide.
Qed.

Lemma generate_timeline_fst_from (usnjrnl : list JrnlEvent)
    (content content0 : gmap Z (list Dirent)) :
  (∀ k, default [] (content !! k) = default [] (content0 !! k)) →
  (generate_timeline usnjrnl content).1 = omap (yielded content0) usnjrnl.
Proof.
  revert content. induction usnjrnl as [|event usnjrnl IH]; intros content Hsame;
    [done |].
  rewrite generate_timeline_cons. cbn [fst]. rewrite (IH _).
  - rewrite (yielded_ext content0 content) by done.
    simpl. by destruct (yielded content0 event).
  - intros k. by rewrite getitem_snd_default.
Qed.

(** The events the generator yields: each journal event, in order, gives
    what its turn yields on the index as it was at the start. *)
Lemma generate_timeline_fst (usnjrnl : list JrnlEvent)
    (content : gmap Z (list Dirent)) :
  (generate_timeline usnjrnl content).1 = omap (yielded content) usnjrnl.
Proof. by apply generate_timeline_fst_from. Qed.

Lemma omap_sublist {A B : Type} (f : A → option B) (l : list A) :
  ∃ kept, kept `sublist_of` l ∧ Forall2 (λ x y, f x = Some y) kept (omap f l).
Proof.
  induction l as [|x l (kept & Hsub & Hall)]; simpl.
  - exists []. split; constructor.
  - destruct (f x) as [y|] eqn:Hfx.
    + exists (x :: kept). split; [by constructor | by constructor].
    + exists kept. split; [by constructor | done].
Qed.

Lemma yielded_Some (content : gmap Z (list Dirent)) (event : JrnlEvent) (e : Event) :
  yielded content event = Some e →
  ∃ dirent, (lookup_dirent event content).1 = Ok dirent ∧
            dirent ∈ default [] (content !! inode event) ∧
            e = event_of event dirent.
Proof.
  unfold yielded. rewrite lookup_dirent_fst.
  destruct (first_dirent _ _) as [dirent|] eqn:Hfirst; [|done].
  intros [= <-]. exists dirent. split_and!; [done | | done].
  by eapply first_dirent_elem.
Qed.

(** C5.  [lookup_dirent] returns an entry exactly when that entry is the
    first one, in the order of the index list of the event's identifier,
    whose path has the event's name as a substring.  For identifier 7 with
    the entries [/a/report.txt] and [/a/report.txt.old] and the name
    [report.txt] it returns the first. *)
Theorem C5_lookup_dirent_first_match (event : JrnlEvent)
    (content : gmap Z (list Dirent)) :
  let dirents := default [] (content !! inode event) in
  (∀ d, (lookup_dirent event content).1 = Ok d ↔
        ∃ before after, dirents = before ++ d :: after ∧
          substring (name event) (path d) ∧
          Forall (λ d', ¬ substring (name event) (path d')) before) ∧
  (lookup_dirent ev_report sample_content).1 = Ok dirent_report.
Proof.
  simpl. split; [|reflexivity].
  intros d. rewrite lookup_dirent_fst, first_dirent_Ok.
  setoid_rewrite contains_true. by setoid_rewrite contains_false.
Qed.

(** Scenario C. *)
Example scenario_C : (lookup_dirent ev_foo sample_content).1 = Ok dirent_foo.
Proof. reflexivity. Qed.

(** C6.  When no entry under the identifier of an event has the event's name
    in its path (none at all, if the identifier is not in the index), the
    lookup raises [LookupError], the generator catches it and yields nothing
    for the event, and the events before and after it are yielded as if it
    were not there. *)
Theorem C6_unresolved_event_dropped (before after : list JrnlEvent)
    (event : JrnlEvent) (content : gmap Z (list Dirent)) :
  Forall (λ d, ¬ substring (name event) (path d))
         (default [] (content !! inode event)) →
  (lookup_dirent event content).1 = Raise (LookupError "Dirent not found") ∧
  (generate_timeline [event] content).1 = [] ∧
  (generate_timeline (before ++ event :: after) content).1 =
  (generate_timeline before content).1 ++ (generate_timeline after content).1.
Proof.
  intros Hmiss.
  assert (Hraise : first_dirent (name event) (default [] (content !! inode event))
                   = Raise (LookupError "Dirent not found")).
  { apply first_dirent_Raise. eapply Forall_impl; [exact Hmiss |].
    intros d. apply contains_false. }
  assert (Hnone : yielded content event = None).
  { unfold yielded. by rewrite Hraise. }
  split_and!.
  - by rewrite lookup_dirent_fst.
  - rewrite generate_timeline_fst. simpl. by rewrite Hnone.
  - rewrite !generate_timeline_fst, omap_app. simpl. by rewrite Hnone.
Qed.

(** C7.  The events [generate_timeline] yields are what the journal events
    yield one by one, in order; there are never more of them than journal
    events; and they are the events of a subsequence of the input, each built
    from one journal event and one entry of its identifier. *)
Theorem C7_timeline_is_subsequence (usnjrnl : list JrnlEvent)
    (content : gmap Z (list Dirent)) :
  let events := (generate_timeline usnjrnl content).1 in
  events = omap (yielded content) usnjrnl ∧
  (length events ≤ length usnjrnl)%nat ∧
  ∃ kept, kept `sublist_of` usnjrnl ∧
    Forall2 (λ event e, ∃ dirent,
               dirent ∈ default [] (content !! inode event) ∧
               e = event_of event dirent) kept events.
Proof.
  simpl. rewrite generate_timeline_fst.
  destruct (omap_sublist (yielded content) usnjrnl) as (kept & Hsub & Hall).
  split_and!; [done | |].
  - rewrite <- (Forall2_length _ _ _ Hall). by apply sublist_length.
  - exists kept. split; [done |]. eapply Forall2_impl; [exact Hall |].
    intros event e (dirent & _ & Hin & ->)%yielded_Some. eauto.
Qed.

(** C8 as stated fails: looking up identifier 6 in the empty index leaves an
    index that holds the key 6. *)
Lemma C8_counterexample_key_added :
  ¬ (∀ (usnjrnl : list JrnlEvent) (content : gmap Z (list Dirent)),
       (generate_timeline usnjrnl content).2 = content).
Proof.
  intros Hclaim. specialize (Hclaim [ev_bar] ∅).
  apply (f_equal (λ m : gmap Z (list Dirent), m !! 6)) in Hclaim.
  vm_compute in Hclaim. discriminate Hclaim.
Qed.

(** C8, as the code has it.  [generate_timeline] keeps every key of the index
    with its list, and every identifier reads the same entries before and
    after, the empty list standing for an absent key.  What changes is that
    an identifier that was absent is bound to the empty list when some journal
    event has it.  When every journal event has its identifier in the index,
    the index is left as it was. *)
Theorem C8_index_entries_unchanged (usnjrnl : list JrnlEvent)
    (content : gmap Z (list Dirent)) :
  let content' := (generate_timeline usnjrnl content).2 in
  (∀ k dirents, content !! k = Some dirents → content' !! k = Some dirents) ∧
  (∀ k, default [] (content' !! k) = default [] (content !! k)) ∧
  (∀ k, content !! k = None →
        content' !! k = if decide (k ∈ inode <$> usnjrnl) then Some [] else None) ∧
  ((∀ event, event ∈ usnjrnl → is_Some (content !! inode event)) →
   content' = content).
Proof.
  simpl. split_and!.
  - intros k dirents Hk. by rewrite generate_timeline_snd, Hk.
  - apply generate_timeline_default.
  - intros k Hk. by rewrite generate_timeline_snd, Hk.
  - intros Hall. apply map_eq. intros k. rewrite generate_timeline_snd.
    destruct (content !! k) eqn:Hk; [done |].
    case_decide as Hin; [|done].
    apply list_elem_of_fmap in Hin as (event & -> & Hev).
    destruct (Hall event Hev) as [dirents Hsome]. congruence.
Qed.

Lemma sample_order_rev_NoDup (l : list string) : NoDup (sample_order_rev l).
Proof.
  unfold sample_order_rev. rewrite reverse_Permutation. apply NoDup_remove_dups.
Qed.

Lemma sample_order_rev_elem (l : list string) (x : string) :
  x ∈ sample_order_rev l ↔ x ∈ l.
Proof. unfold sample_order_rev. by rewrite elem_of_reverse, elem_of_remove_dups. Qed.

Lemma comprehension_ext {A B : Type} (f g : A → result B) (l : list A) :
  (∀ x, f x = g x) → comprehension f l = comprehension g l.
Proof. intros Hfg. induction l as [|x xs IH]; simpl; [done |]. by rewrite Hfg, IH. Qed.

(** The events two iteration orders give for the same groups: the same but
    for the order inside [changes] and [attributes]. *)
Lemma journal_events_same_up_to_order (list_of_set1 list_of_set2 : list string → list string)
    (groups : list (list UsnRecord)) (evs1 evs2 : list JrnlEvent) :
  (∀ l, NoDup (list_of_set1 l)) → (∀ l x, x ∈ list_of_set1 l ↔ x ∈ l) →
  (∀ l, NoDup (list_of_set2 l)) → (∀ l x, x ∈ list_of_set2 l ↔ x ∈ l) →
  Forall2 (λ run ev, journal_event list_of_set1 run = Ok ev) groups evs1 →
  Forall2 (λ run ev, journal_event list_of_set2 run = Ok ev) groups evs2 →
  Forall2 (λ ev1 ev2,
    inode ev1 = inode ev2 ∧ name ev1 = name ev2 ∧
    jrnl_timestamp ev1 = jrnl_timestamp ev2 ∧
    NoDup (changes ev1) ∧ NoDup (changes ev2) ∧
    (∀ c, c ∈ changes ev1 ↔ c ∈ changes ev2) ∧
    NoDup (attributes ev1) ∧ NoDup (attributes ev2) ∧
    (∀ a, a ∈ attributes ev1 ↔ a ∈ attributes ev2)) evs1 evs2.
Proof.
  intros Hnd1 Hel1 Hnd2 Hel2. revert evs1 evs2.
  induction groups as [|run groups IH]; intros evs1 evs2 Hall1 Hall2.
  - apply Forall2_nil_inv_l in Hall1 as ->.
    apply Forall2_nil_inv_l in Hall2 as ->. constructor.
  - apply Forall2_cons_inv_l in Hall1 as (ev1 & evs1' & Hev1 & Hall1 & ->).
    apply Forall2_cons_inv_l in Hall2 as (ev2 & evs2' & Hev2 & Hall2 & ->).
    constructor; [|by apply IH].
    destruct run as [|first rest]; [done |].
    destruct (journal_event_cons list_of_set1 Hnd1 Hel1 first rest)
      as (e1 & He1 & Hi1 & Hn1 & Ht1 & Hndc1 & Hnda1 & Hc1 & Ha1).
    destruct (journal_event_cons list_of_set2 Hnd2 Hel2 first rest)
      as (e2 & He2 & Hi2 & Hn2 & Ht2 & Hndc2 & Hnda2 & Hc2 & Ha2).
    rewrite Hev1 in He1. injection He1 as <-.
    rewrite Hev2 in He2. injection He2 as <-.
    split_and!; try done; try congruence.
    + intros c. by rewrite Hc1, Hc2.
    + intros a. by rewrite Ha1, Ha2.
Qed.

(** Journal events that agree in identifier and name resolve alike. *)
Lemma yielded_same_up_to_order (content : gmap Z (list Dirent))
    (P : list string → list string → Prop) (evs1 evs2 : list JrnlEvent) :
  Forall2 (λ ev1 ev2,
    inode ev1 = inode ev2 ∧ name ev1 = name ev2 ∧
    jrnl_timestamp ev1 = jrnl_timestamp ev2 ∧
    P (changes ev1) (changes ev2) ∧ P (attributes ev1) (attributes ev2))
    evs1 evs2 →
  Forall2 (λ e1 e2,
    ev_file_reference_number e1 = ev_file_reference_number e2 ∧
    ev_path e1 = ev_path e2 ∧ ev_size e1 = ev_size e2 ∧
    ev_allocated e1 = ev_allocated e2 ∧ ev_timestamp e1 = ev_timestamp e2 ∧
    P (ev_changes e1) (ev_changes e2) ∧ P (ev_attributes e1) (ev_attributes e2))
    (omap (yielded content) evs1) (omap (yielded content) evs2).
Proof.
  induction 1 as [|ev1 ev2 evs1 evs2 (Hi & Hn & Ht & Hc & Ha) _ IH];
    [constructor |].
  assert (Hy : (yielded content ev1 = None ∧ yielded content ev2 = None) ∨
               ∃ d, yielded content ev1 = Some (event_of ev1 d) ∧
                    yielded content ev2 = Some (event_of ev2 d)).
  { unfold yielded. rewrite Hi, Hn.
    destruct (first_dirent _ _) as [d|]; [right; by exists d | by left]. }
  cbn [omap list_omap].
  destruct Hy as [[-> ->] | (d & -> & ->)]; [exact IH |].
  constructor; [|exact IH]. simpl. by split_and!.
Qed.

(** C9 as stated fails: on the journal of scenario A and the walk of the
    samples, two iteration orders for sets, each listing every member once,
    give timelines that differ in the order of [changes]. *)
Lemma C9_counterexample_set_order :
  ¬ (∀ (list_of_set1 list_of_set2 : list string → list string)
       (fs_path : string → string) (journal : list UsnRecord)
       (walk : list TskDirent),
       (∀ l, NoDup (list_of_set1 l)) → (∀ l x, x ∈ list_of_set1 l ↔ x ∈ l) →
       (∀ l, NoDup (list_of_set2 l)) → (∀ l x, x ∈ list_of_set2 l ↔ x ∈ l) →
       timeline list_of_set1 fs_path journal walk =
       timeline list_of_set2 fs_path journal walk).
Proof.
  intros Hclaim.
  specialize (Hclaim sample_order sample_order_rev (λ p, p)
                [rec_foo_extend; rec_foo_close] sample_walk
                (λ l, NoDup_remove_dups l) (λ l x, elem_of_remove_dups l x)
                sample_order_rev_NoDup sample_order_rev_elem).
  vm_compute in Hclaim. discriminate Hclaim.
Qed.

(** C9, as the code has it.  Two runs of the pipeline over the same journal
    and the same walk, each with its own iteration order for sets, both
    return, with the same number of events in the same order; the events
    agree pairwise in identifier, path, size, allocation flag and timestamp,
    and their [changes] and [attributes] have no duplicates and the same
    members.  When the two runs iterate sets in the same order, the two
    timelines are equal. *)
Theorem C9_timeline_same_up_to_set_order
    (list_of_set1 list_of_set2 : list string → list string)
    (fs_path : string → string) (journal : list UsnRecord)
    (walk : list TskDirent) :
  (∀ l, NoDup (list_of_set1 l)) → (∀ l x, x ∈ list_of_set1 l ↔ x ∈ l) →
  (∀ l, NoDup (list_of_set2 l)) → (∀ l x, x ∈ list_of_set2 l ↔ x ∈ l) →
  ∃ events1 events2,
    timeline list_of_set1 fs_path journal walk = Ok events1 ∧
    timeline list_of_set2 fs_path journal walk = Ok events2 ∧
    Forall2 (λ e1 e2,
      ev_file_reference_number e1 = ev_file_reference_number e2 ∧
      ev_path e1 = ev_path e2 ∧ ev_size e1 = ev_size e2 ∧
      ev_allocated e1 = ev_allocated e2 ∧ ev_timestamp e1 = ev_timestamp e2 ∧
      (NoDup (ev_changes e1) ∧ NoDup (ev_changes e2) ∧
       ∀ c, c ∈ ev_changes e1 ↔ c ∈ ev_changes e2) ∧
      (NoDup (ev_attributes e1) ∧ NoDup (ev_attributes e2) ∧
       ∀ a, a ∈ ev_attributes e1 ↔ a ∈ ev_attributes e2))
      events1 events2 ∧
    ((∀ l, list_of_set1 l = list_of_set2 l) → events1 = events2).
Proof.
  intros Hnd1 Hel1 Hnd2 Hel2.
  destruct (parse_journal_Ok list_of_set1 journal) as (evs1 & Hevs1 & Hall1).
  destruct (parse_journal_Ok list_of_set2 journal) as (evs2 & Hevs2 & Hall2).
  exists (generate_timeline evs1 (visit_filesystem fs_path walk)).1,
         (generate_timeline evs2 (visit_filesystem fs_path walk)).1.
  split_and!.
  - unfold timeline. by rewrite Hevs1.
  - unfold timeline. by rewrite Hevs2.
  - rewrite !generate_timeline_fst.
    apply (yielded_same_up_to_order _
             (λ l1 l2, NoDup l1 ∧ NoDup l2 ∧ ∀ x, x ∈ l1 ↔ x ∈ l2)).
    eapply Forall2_impl;
      [exact (journal_events_same_up_to_order _ _ _ _ _
                Hnd1 Hel1 Hnd2 Hel2 Hall1 Hall2) |].
    intros ev1 ev2 (Hi & Hn & Ht & Hc1 & Hc2 & Hc & Ha1 & Ha2 & Ha).
    by split_and!.
  - intros Hsame. do 2 f_equal.
    assert (Heq : parse_journal list_of_set1 journal =
                  parse_journal list_of_set2 journal).
    { apply comprehension_ext. intros run. unfold journal_event.
      by rewrite !Hsame. }
    congruence.
Qed.

Lemma C9_witness_two_orders :
  ∃ events1 events2,
    timeline sample_order (λ p, p) [rec_foo_extend; rec_foo_close; rec_bar_close]
      sample_walk = Ok events1 ∧
    timeline sample_order_rev (λ p, p) [rec_foo_extend; rec_foo_close; rec_bar_close]
      sample_walk = Ok events2 ∧
    Forall2 (λ e1 e2,
      ev_file_reference_number e1 = ev_file_reference_number e2 ∧
      ev_path e1 = ev_path e2 ∧ ev_size e1 = ev_size e2 ∧
      ev_allocated e1 = ev_allocated e2 ∧ ev_timestamp e1 = ev_timestamp e2 ∧
      (NoDup (ev_changes e1) ∧ NoDup (ev_changes e2) ∧
       ∀ c, c ∈ ev_changes e1 ↔ c ∈ ev_changes e2) ∧
      (NoDup (ev_attributes e1) ∧ NoDup (ev_attributes e2) ∧
       ∀ a, a ∈ ev_attributes e1 ↔ a ∈ ev_attributes e2))
      events1 events2 ∧
    ((∀ l, sample_order l = sample_order_rev l) → events1 = events2).
Proof.
  apply (C9_timeline_same_up_to_set_order sample_order sample_order_rev (λ p, p)
           [rec_foo_extend; rec_foo_close; rec_bar_close] sample_walk
           (λ l, NoDup_remove_dups l) (λ l x, elem_of_remove_dups l x)
           sample_order_rev_NoDup sample_order_rev_elem).
Defined.

(** C10.  For an event with the empty name whose identifier has a non-empty
    list in the index, [lookup_dirent] returns the first entry of the list
    and leaves the index as it is, and the generator yields the event built
    from that entry. *)
Theorem C10_empty_name_takes_first_entry (before after : list JrnlEvent)
    (event : JrnlEvent) (content : gmap Z (list Dirent))
    (first : Dirent) (rest : list Dirent) :
  name event = "" →
  content !! inode event = Some (first :: rest) →
  lookup_dirent event content = (Ok first, content) ∧
  yielded content event = Some (event_of event first) ∧
  event_of event first ∈ (generate_timeline (before ++ event :: after) content).1.
Proof.
  intros Hname Hlist.
  assert (Hyield : yielded content event = Some (event_of event first)).
  { unfold yielded. rewrite Hlist, Hname. simpl. by rewrite contains_empty. }
  split_and!.
  - unfold lookup_dirent, getitem. rewrite Hlist, Hname. simpl.
    by rewrite contains_empty.
  - exact Hyield.
  - rewrite generate_timeline_fst, omap_app. simpl. rewrite Hyield.
    apply elem_of_app. right. left.
Qed.

(** Scenario B: identifier 6 is not in the index, and its event is not in
    the timeline. *)
Example scenario_B :
  (generate_timeline [ev_foo; ev_bar; ev_report] sample_content).1 =
  [event_of ev_foo dirent_foo; event_of ev_report dirent_report].
Proof. reflexivity. Qed.

Lemma C6_witness_scenario_B :
  (lookup_dirent ev_bar sample_content).1 = Raise (LookupError "Dirent not found") ∧
  (generate_timeline [ev_bar] sample_content).1 = [] ∧
  (generate_timeline ([ev_foo] ++ ev_bar :: [ev_report]) sample_content).1 =
  (generate_timeline [ev_foo] sample_content).1 ++
  (generate_timeline [ev_report] sample_content).1.
Proof.
  apply (C6_unresolved_event_dropped [ev_foo] [ev_report] ev_bar sample_content).
  vm_compute. constructor.
Defined.

Lemma C10_witness_unnamed :
  lookup_dirent ev_unnamed sample_content = (Ok dirent_report, sample_content) ∧
  yielded sample_content ev_unnamed = Some (event_of ev_unnamed dirent_report) ∧
  event_of ev_unnamed dirent_report ∈
    (generate_timeline ([ev_foo] ++ ev_unnamed :: [ev_report]) sample_content).1.
Proof.
  apply (C10_empty_name_takes_first_entry [ev_foo] [ev_report] ev_unnamed
           sample_content dirent_report [dirent_report_old]); reflexivity.
Defined.


(** * Further facts *)

(** ** groupby: boundaries between groups *)

Section groupby_boundaries.
Context {A : Type} (key : A → string).

(** A new group opens only on a change of key. *)
Lemma groupby_from_keys_differ (k : string) (l : list A) :
  (∀ kg, head (groupby_from key k l).2 = Some kg → kg.1 ≠ k) ∧
  (∀ i kg1 kg2, (groupby_from key k l).2 !! i = Some kg1 →
                (groupby_from key k l).2 !! S i = Some kg2 → kg1.1 ≠ kg2.1).
Proof.
  revert k. induction l as [|x xs IH]; intros k; simpl; [by split |].
  case_decide as Hk.
  - destruct (IH k) as [IH1 IH2]. by destruct (groupby_from key k xs) as [g gs].
  - destruct (IH (key x)) as [IH1 IH2].
    destruct (groupby_from key (key x) xs) as [g gs]. simpl in *. split.
    + by intros kg [= <-].
    + intros [|i] kg1 kg2; simpl.
      * intros [= <-] Hkg2. simpl. intros Heq. apply (IH1 kg2); [|done].
        by destruct gs; simplify_eq/=.
      * apply IH2.
Qed.

Lemma groupby_keys_differ (l : list A) (i : nat) (kg1 kg2 : string * list A) :
  groupby key l !! i = Some kg1 → groupby key l !! S i = Some kg2 → kg1.1 ≠ kg2.1.
Proof.
  destruct l as [|x xs]; simpl; [done |].
  destruct (groupby_from_keys_differ (key x) xs) as [H1 H2].
  destruct (groupby_from key (key x) xs) as [g gs]. simpl in *.
  destruct i as [|i]; simpl.
  - intros [= <-] Hkg2. simpl. intros Heq. apply (H1 kg2); [|done].
    by destruct gs; simplify_eq/=.
  - apply H2.
Qed.

(** The pass over [l1 ++ a :: b :: l2] with a change of key between [a] and
    [b]: the pass over [l1 ++ [a]], then the groups of [b :: l2]. *)
Lemma groupby_from_app (k : string) (l1 l2 : list A) (a b : A) :
  key a ≠ key b →
  groupby_from key k (l1 ++ a :: b :: l2) =
  ((groupby_from key k (l1 ++ [a])).1,
   (groupby_from key k (l1 ++ [a])).2 ++ groupby key (b :: l2)).
Proof.
  intros Hab. revert k. induction l1 as [|x l1 IH]; intros k.
  - cbn [app groupby_from groupby].
    destruct (decide (key a = k)) as [<-|Hk].
    + rewrite (decide_False (P := key b = key a)) by done.
      by destruct (groupby_from key (key b) l2) as [g gs].
    + rewrite (decide_False (P := key b = key a)) by done.
      by destruct (groupby_from key (key b) l2) as [g gs].
  - cbn [app groupby_from]. case_decide.
    + rewrite IH. by destruct (groupby_from key k (l1 ++ [a])).
    + rewrite IH. by destruct (groupby_from key (key x) (l1 ++ [a])).
Qed.

Lemma groupby_app (l1 l2 : list A) (a b : A) :
  key a ≠ key b →
  groupby key ((l1 ++ [a]) ++ b :: l2) =
  groupby key (l1 ++ [a]) ++ groupby key (b :: l2).
Proof.
  intros Hab. rewrite <- app_assoc. cbn [app].
  destruct l1 as [|x l1].
  - cbn [app groupby groupby_from].
    rewrite (decide_False (P := key b = key a)) by done.
    by destruct (groupby_from key (key b) l2) as [g gs].
  - cbn [app groupby]. rewrite groupby_from_app by done.
    by destruct (groupby_from key (key x) (l1 ++ [a])).
Qed.

(** Where every element has the key of the group being built, the pass
    stays in that group. *)
Lemma groupby_from_same_key (k : string) (l : list A) :
  Forall (λ x, key x = k) l → groupby_from key k l = (l, []).
Proof.
  induction 1 as [|x xs Hx _ IH]; simpl; [done |].
  by rewrite decide_True, IH.
Qed.

(** Where every element changes the key, each element is a group. *)
Lemma groupby_from_all_differ (k : string) (l : list A) :
  (∀ x, head l = Some x → key x ≠ k) →
  (∀ i x y, l !! i = Some x → l !! S i = Some y → key x ≠ key y) →
  groupby_from key k l = ([], (λ x, (key x, [x])) <$> l).
Proof.
  revert k. induction l as [|x xs IH]; intros k Hhead Hadj; simpl; [done |].
  rewrite decide_False by by apply Hhead.
  rewrite (IH (key x)).
  - done.
  - intros y Hy. apply not_eq_sym, (Hadj 0%nat x y); [done |].
    by destruct xs; simplify_eq/=.
  - intros i y z. apply (Hadj (S i)).
Qed.
End groupby_boundaries.

(** ** groupby: a repeated element *)

Section groupby_duplicate.
Context {A : Type} (key : A → string).

Local Ltac same_members :=
  let y := fresh "y" in
  intros y; rewrite !elem_of_cons;
  try match goal with H : ∀ x, _ ∈ _ ↔ _ ∈ _ |- _ => rewrite (H y) end;
  tauto.

Lemma Forall2_same_group (gs : list (string * list A)) :
  Forall2 (λ kg kg', kg.1 = kg'.1 ∧ head kg.2 = head kg'.2 ∧
                     ∀ x, x ∈ kg.2 ↔ x ∈ kg'.2) gs gs.
Proof. induction gs; constructor; done. Qed.

(** Repeating an element next to itself changes no boundary: the groups
    keep their keys, their first elements and their members. *)
Lemma groupby_from_duplicate (k : string) (l1 l2 : list A) (r : A) :
  (head (groupby_from key k (l1 ++ r :: r :: l2)).1 =
   head (groupby_from key k (l1 ++ r :: l2)).1 ∧
   ∀ x, x ∈ (groupby_from key k (l1 ++ r :: r :: l2)).1 ↔
        x ∈ (groupby_from key k (l1 ++ r :: l2)).1) ∧
  Forall2 (λ kg kg', kg.1 = kg'.1 ∧ head kg.2 = head kg'.2 ∧
                     ∀ x, x ∈ kg.2 ↔ x ∈ kg'.2)
          (groupby_from key k (l1 ++ r :: r :: l2)).2
          (groupby_from key k (l1 ++ r :: l2)).2.
Proof.
  revert k. induction l1 as [|x l1 IH]; intros k.
  - cbn [app groupby_from]. destruct (decide (key r = k)) as [Hk|Hk].
    + destruct (groupby_from key k l2) as [g gs]. simpl.
      split; [|apply Forall2_same_group]. split; [done |]. same_members.
    + rewrite (decide_True (P := key r = key r)) by done.
      destruct (groupby_from key (key r) l2) as [g gs]. simpl.
      split; [done |]. constructor; [|apply Forall2_same_group].
      simpl. split_and!; [done | done |]. same_members.
  - cbn [app groupby_from]. case_decide as Hk.
    + destruct (IH k) as [[Hhead Hmem] Hgs].
      destruct (groupby_from key k (l1 ++ r :: r :: l2)) as [g gs].
      destruct (groupby_from key k (l1 ++ r :: l2)) as [g' gs']. simpl in *.
      split; [|done]. split; [done |]. same_members.
    + destruct (IH (key x)) as [[Hhead Hmem] Hgs].
      destruct (groupby_from key (key x) (l1 ++ r :: r :: l2)) as [g gs].
      destruct (groupby_from key (key x) (l1 ++ r :: l2)) as [g' gs']. simpl in *.
      split; [done |]. constructor; [|done].
      simpl. split_and!; [done | done |]. same_members.
Qed.

Lemma groupby_duplicate (l1 l2 : list A) (r : A) :
  Forall2 (λ kg kg', kg.1 = kg'.1 ∧ head kg.2 = head kg'.2 ∧
                     ∀ x, x ∈ kg.2 ↔ x ∈ kg'.2)
          (groupby key (l1 ++ r :: r :: l2)) (groupby key (l1 ++ r :: l2)).
Proof.
  destruct l1 as [|x l1].
  - cbn [app groupby groupby_from].
    rewrite (decide_True (P := key r = key r)) by done.
    destruct (groupby_from key (key r) l2) as [g gs].
    constructor; [|apply Forall2_same_group].
    simpl. split_and!; [done | done |]. same_members.
  - cbn [app groupby].
    destruct (groupby_from_duplicate (key x) l1 l2 r) as [[Hhead Hmem] Hgs].
    destruct (groupby_from key (key x) (l1 ++ r :: r :: l2)) as [g gs].
    destruct (groupby_from key (key x) (l1 ++ r :: l2)) as [g' gs']. simpl in *.
    constructor; [|done]. simpl. split_and!; [done | done |]. same_members.
Qed.
End groupby_duplicate.

(** ** The journal aggregator, further *)

Lemma comprehension_app {A B : Type} (f : A → result B) (l1 l2 : list A)
    (ys1 ys2 : list B) :
  comprehension f l1 = Ok ys1 → comprehension f l2 = Ok ys2 →
  comprehension f (l1 ++ l2) = Ok (ys1 ++ ys2).
Proof. rewrite !comprehension_Ok. apply Forall2_app. Qed.

Lemma length_concat_nonempty {A : Type} (groups : list (list A)) :
  Forall (λ g, g ≠ []) groups → (length groups ≤ length (concat groups))%nat.
Proof.
  induction 1 as [|g groups Hg _ IH]; simpl; [done |].
  rewrite length_app. destruct g; [done |]. simpl. lia.
Qed.

Lemma event_groups_length (journal : list UsnRecord) :
  (length (event_groups journal) ≤ length journal)%nat.
Proof.
  rewrite <- (event_groups_concat journal) at 2.
  apply length_concat_nonempty, event_groups_nonempty.
Qed.

Section aggregator_more_facts.
Variable list_of_set : list string → list string.
Hypothesis list_of_set_NoDup : ∀ l, NoDup (list_of_set l).
Hypothesis list_of_set_elem : ∀ l x, x ∈ list_of_set l ↔ x ∈ l.

(** X1.  [parse_journal] never raises: the [IndexError] of [journal_event]
    on an empty tuple cannot occur, since no group is empty.  It returns one
    event for each group, so never more events than records, and no event
    exactly for the empty journal. *)
Theorem X1_parse_journal_never_raises (journal : list UsnRecord) :
  ∃ evs, parse_journal list_of_set journal = Ok evs ∧
         length evs = length (event_groups journal) ∧
         (length evs ≤ length journal)%nat ∧
         (evs = [] ↔ journal = []).
Proof.
  destruct (parse_journal_Ok list_of_set journal) as (evs & Hevs & Hall).
  apply Forall2_length in Hall. exists evs. split_and!; [done | done | |].
  - rewrite <- Hall. apply event_groups_length.
  - split.
    + intros ->. rewrite <- (event_groups_concat journal).
      by destruct (event_groups journal).
    + intros ->. by destruct evs.
Qed.

(** X2.  The groups are maximal: no record of a group has the key of a
    record of the next group. *)
Theorem X2_next_group_has_another_key (journal : list UsnRecord) (i : nat)
    (run1 run2 : list UsnRecord) (a b : UsnRecord) :
  event_groups journal !! i = Some run1 →
  event_groups journal !! S i = Some run2 →
  a ∈ run1 → b ∈ run2 → keyfunc a ≠ keyfunc b.
Proof.
  unfold event_groups. rewrite !list_lookup_fmap.
  destruct (groupby keyfunc journal !! i) as [[k1 g1]|] eqn:H1; [|done].
  destruct (groupby keyfunc journal !! S i) as [[k2 g2]|] eqn:H2; [|done].
  simpl. intros [= <-] [= <-] Ha Hb.
  pose proof (groupby_keys_differ keyfunc journal i _ _ H1 H2) as Hne.
  pose proof (groupby_keys keyfunc journal) as Hkeys.
  rewrite Forall_forall in Hkeys.
  pose proof (Hkeys _ (list_elem_of_lookup_2 _ _ _ H1)) as Hk1.
  pose proof (Hkeys _ (list_elem_of_lookup_2 _ _ _ H2)) as Hk2.
  simpl in *. rewrite Forall_forall in Hk1, Hk2.
  rewrite (Hk1 a Ha), (Hk2 b Hb). exact Hne.
Qed.

(** X3.  Where the key changes between two adjacent records the journal can
    be cut: the groups, and the events, of the whole are those of the part
    up to the cut followed by those of the part after it. *)
Theorem X3_parse_journal_cut_at_key_change (l1 l2 : list UsnRecord)
    (a b : UsnRecord) (evs1 evs2 : list JrnlEvent) :
  keyfunc a ≠ keyfunc b →
  parse_journal list_of_set (l1 ++ [a]) = Ok evs1 →
  parse_journal list_of_set (b :: l2) = Ok evs2 →
  event_groups ((l1 ++ [a]) ++ b :: l2) =
  event_groups (l1 ++ [a]) ++ event_groups (b :: l2) ∧
  parse_journal list_of_set ((l1 ++ [a]) ++ b :: l2) = Ok (evs1 ++ evs2).
Proof.
  intros Hab H1 H2.
  assert (Hgroups : event_groups ((l1 ++ [a]) ++ b :: l2) =
                    event_groups (l1 ++ [a]) ++ event_groups (b :: l2)).
  { unfold event_groups. by rewrite groupby_app, fmap_app. }
  split; [done |]. unfold parse_journal. rewrite Hgroups.
  by apply comprehension_app.
Qed.

(** X4.  A journal whose records all have one key is one group, and
    aggregates to one event. *)
Theorem X4_one_key_one_event (first : UsnRecord) (rest : list UsnRecord) :
  Forall (λ r, keyfunc r = keyfunc first) rest →
  event_groups (first :: rest) = [first :: rest] ∧
  ∃ ev, parse_journal list_of_set (first :: rest) = Ok [ev] ∧
        journal_event list_of_set (first :: rest) = Ok ev.
Proof.
  intros Hkeys.
  assert (Hgroups : event_groups (first :: rest) = [first :: rest]).
  { unfold event_groups. cbn [groupby].
    by rewrite (groupby_from_same_key keyfunc _ _ Hkeys). }
  split; [done |]. eexists. unfold parse_journal. rewrite Hgroups.
  split; reflexivity.
Qed.

(** X5.  A journal in which every record changes the key is left record by
    record: each record is a group, and there are as many events as
    records. *)
Theorem X5_all_keys_change_no_merge (journal : list UsnRecord) :
  (∀ i r1 r2, journal !! i = Some r1 → journal !! S i = Some r2 →
              keyfunc r1 ≠ keyfunc r2) →
  event_groups journal = (λ r, [r]) <$> journal ∧
  ∃ evs, parse_journal list_of_set journal = Ok evs ∧
         length evs = length journal.
Proof.
  intros Hadj.
  assert (Hgroups : event_groups journal = (λ r, [r]) <$> journal).
  { unfold event_groups. destruct journal as [|r rs]; [done |]. cbn [groupby].
    rewrite (groupby_from_all_differ keyfunc (keyfunc r) rs).
    - simpl. f_equal. rewrite <- list_fmap_compose. by apply list_fmap_ext.
    - intros x Hx. apply not_eq_sym, (Hadj 0%nat r x); [done |].
      by destruct rs; simplify_eq/=.
    - intros i x y. apply (Hadj (S i)). }
  split; [done |].
  destruct (parse_journal_Ok list_of_set journal) as (evs & Hevs & Hall).
  exists evs. split; [done |]. apply Forall2_length in Hall.
  by rewrite <- Hall, Hgroups, length_fmap.
Qed.

Lemma journal_event_same_members (run run' : list UsnRecord) (ev ev' : JrnlEvent) :
  head run = head run' → (∀ r, r ∈ run ↔ r ∈ run') →
  journal_event list_of_set run = Ok ev →
  journal_event list_of_set run' = Ok ev' →
  inode ev = inode ev' ∧ name ev = name ev' ∧
  jrnl_timestamp ev = jrnl_timestamp ev' ∧
  (∀ c, c ∈ changes ev ↔ c ∈ changes ev') ∧
  (∀ a, a ∈ attributes ev ↔ a ∈ attributes ev').
Proof.
  intros Hhead Hmem Hev Hev'.
  destruct run as [|first rest]; [done |].
  destruct run' as [|first' rest']; [done |].
  injection Hhead as <-.
  destruct (journal_event_cons list_of_set list_of_set_NoDup list_of_set_elem
              first rest) as (e & He & Hi & Hn & Ht & _ & _ & Hc & Ha).
  destruct (journal_event_cons list_of_set list_of_set_NoDup list_of_set_elem
              first rest') as (e' & He' & Hi' & Hn' & Ht' & _ & _ & Hc' & Ha').
  rewrite Hev in He. injection He as <-.
  rewrite Hev' in He'. injection He' as <-.
  split_and!; try congruence.
  - intros c. rewrite Hc, Hc'. by setoid_rewrite Hmem.
  - intros a. rewrite Ha, Ha'. by setoid_rewrite Hmem.
Qed.

(** X6.  Removing duplicates: a record repeated next to itself adds no
    event and changes none.  The journal with the repetition and the journal
    without it give as many events, with the same identifier, name and
    timestamp and the same members of [changes] and [attributes]. *)
Theorem X6_repeated_record_adds_nothing (l1 l2 : list UsnRecord) (r : UsnRecord) :
  ∃ evs evs',
    parse_journal list_of_set (l1 ++ r :: r :: l2) = Ok evs ∧
    parse_journal list_of_set (l1 ++ r :: l2) = Ok evs' ∧
    Forall2 (λ ev ev',
      inode ev = inode ev' ∧ name ev = name ev' ∧
      jrnl_timestamp ev = jrnl_timestamp ev' ∧
      (∀ c, c ∈ changes ev ↔ c ∈ changes ev') ∧
      (∀ a, a ∈ attributes ev ↔ a ∈ attributes ev')) evs evs'.
Proof.
  destruct (parse_journal_Ok list_of_set (l1 ++ r :: r :: l2)) as (evs & Hevs & Hall).
  destruct (parse_journal_Ok list_of_set (l1 ++ r :: l2)) as (evs' & Hevs' & Hall').
  exists evs, evs'. split_and!; [done | done |].
  pose proof (groupby_duplicate keyfunc l1 l2 r) as Hgroups.
  unfold event_groups in Hall, Hall'. clear Hevs Hevs'.
  revert evs evs' Hall Hall'.
  induction Hgroups as [|kg kg' gs gs' (_ & Hhead & Hmem) _ IH];
    intros evs evs' Hall Hall'.
  - apply Forall2_nil_inv_l in Hall as ->.
    apply Forall2_nil_inv_l in Hall' as ->. constructor.
  - rewrite fmap_cons in Hall, Hall'.
    apply Forall2_cons_inv_l in Hall as (ev & evs0 & Hev & Hall & ->).
    apply Forall2_cons_inv_l in Hall' as (ev' & evs0' & Hev' & Hall' & ->).
    constructor; [|by apply IH].
    by apply (journal_event_same_members kg.2 kg'.2).
Qed.
End aggregator_more_facts.

Lemma X3_witness_cut :
  event_groups (([rec_foo_extend] ++ [rec_foo_close]) ++ rec_bar_close :: []) =
  event_groups ([rec_foo_extend] ++ [rec_foo_close]) ++ event_groups [rec_bar_close] ∧
  parse_journal sample_order (([rec_foo_extend] ++ [rec_foo_close]) ++ rec_bar_close :: []) =
  Ok ([mkJrnlEvent 5 "foo.txt" "2016-09-05 10:00:00" ["DATA_EXTEND"; "CLOSE"] ["ARCHIVE"]] ++
      [mkJrnlEvent 6 "bar.txt" "2016-09-05 10:00:00" ["CLOSE"] ["ARCHIVE"]]).
Proof.
  apply (X3_parse_journal_cut_at_key_change sample_order
           [rec_foo_extend] [] rec_foo_close rec_bar_close);
    [vm_compute; discriminate | reflexivity | reflexivity].
Defined.

Lemma X2_witness_next_group :
  keyfunc rec_foo_close ≠ keyfunc rec_bar_close.
Proof.
  apply (X2_next_group_has_another_key
           [rec_foo_extend; rec_foo_close; rec_bar_close] 0
           [rec_foo_extend; rec_foo_close] [rec_bar_close]);
    [reflexivity | reflexivity | right; left | left].
Defined.

Lemma X4_witness_one_key :
  event_groups (rec_foo_extend :: [rec_foo_close]) = [rec_foo_extend :: [rec_foo_close]] ∧
  ∃ ev, parse_journal sample_order (rec_foo_extend :: [rec_foo_close]) = Ok [ev] ∧
        journal_event sample_order (rec_foo_extend :: [rec_foo_close]) = Ok ev.
Proof.
  apply (X4_one_key_one_event sample_order rec_foo_extend [rec_foo_close]).
  constructor; [reflexivity | constructor].
Defined.

Lemma X5_witness_no_merge :
  event_groups [rec_foo_extend; rec_bar_close; rec_foo_close] =
  (λ r, [r]) <$> [rec_foo_extend; rec_bar_close; rec_foo_close] ∧
  ∃ evs, parse_journal sample_order [rec_foo_extend; rec_bar_close; rec_foo_close] = Ok evs ∧
         length evs = length [rec_foo_extend; rec_bar_close; rec_foo_close].
Proof.
  apply (X5_all_keys_change_no_merge sample_order
           [rec_foo_extend; rec_bar_close; rec_foo_close]).
  intros [|[|[|i]]] r1 r2 H1 H2; simplify_eq/=; vm_compute; discriminate.
Defined.

Lemma X6_witness_repeated :
  ∃ evs evs',
    parse_journal sample_order ([rec_foo_extend] ++ rec_foo_close :: rec_foo_close :: [rec_bar_close]) = Ok evs ∧
    parse_journal sample_order ([rec_foo_extend] ++ rec_foo_close :: [rec_bar_close]) = Ok evs' ∧
    Forall2 (λ ev ev',
      inode ev = inode ev' ∧ name ev = name ev' ∧
      jrnl_timestamp ev = jrnl_timestamp ev' ∧
      (∀ c, c ∈ changes ev ↔ c ∈ changes ev') ∧
      (∀ a, a ∈ attributes ev ↔ a ∈ attributes ev')) evs evs'.
Proof.
  apply (X6_repeated_record_adds_nothing sample_order
           (λ l, NoDup_remove_dups l) (λ l x, elem_of_remove_dups l x)
           [rec_foo_extend] [rec_bar_close] rec_foo_close).
Defined.

(** ** The directory index, further *)

Lemma concat_Permutation {A : Type} (ls ls' : list (list A)) :
  ls ≡ₚ ls' → concat ls ≡ₚ concat ls'.
Proof.
  induction 1 as [|l ls ls' _ IH|l1 l2 ls|ls1 ls2 ls3 _ IH1 _ IH2]; simpl.
  - done.
  - by rewrite IH.
  - rewrite !app_assoc. by rewrite (Permutation_app_comm l2 l1).
  - by rewrite IH1.
Qed.

Lemma first_dirent_app (name : string) (dirents more : list Dirent) (d : Dirent) :
  first_dirent name dirents = Ok d → first_dirent name (dirents ++ more) = Ok d.
Proof.
  induction dirents as [|d0 dirents IH]; simpl; [done |].
  by destruct (contains name (path d0)).
Qed.

Section index_more_facts.
Variable fs_path : string → string.

Lemma append_entries (content : gmap Z (list Dirent)) (k : Z) (d : Dirent) :
  concat (map_to_list (append content k d)).*2 ≡ₚ
  concat (map_to_list content).*2 ++ [d].
Proof.
  rewrite append_insert. destruct (content !! k) as [old|] eqn:Hk; simpl.
  - rewrite <- insert_delete_eq.
    rewrite (concat_Permutation _ ((k, old ++ [d]) :: map_to_list (delete k content)).*2).
    + rewrite <- (concat_Permutation ((k, old) :: map_to_list (delete k content)).*2
                   (map_to_list content).*2).
      * simpl. rewrite <- !app_assoc. apply Permutation_app_head, Permutation_app_comm.
      * apply fmap_Permutation. by apply map_to_list_delete.
    + apply fmap_Permutation, map_to_list_insert, lookup_delete_eq.
  - rewrite (concat_Permutation _ ((k, [d]) :: map_to_list content).*2).
    + cbn [fmap list_fmap snd concat app]. apply Permutation_cons_append.
    + by apply fmap_Permutation, map_to_list_insert.
Qed.

Lemma foldl_visit_entries (walk : list TskDirent) (content : gmap Z (list Dirent)) :
  concat (map_to_list (foldl (visit fs_path) content walk)).*2 ≡ₚ
  concat (map_to_list content).*2 ++ (dirent_of fs_path <$> walk).
Proof.
  revert content. induction walk as [|e walk IH]; intros content; simpl.
  - by rewrite app_nil_r.
  - rewrite IH, visit_append, append_entries. by rewrite <- app_assoc.
Qed.

Lemma foldl_visit_dom (walk : list TskDirent) (content : gmap Z (list Dirent)) :
  dom (foldl (visit fs_path) content walk) =
  dom content ∪ list_to_set (tsk_inode <$> walk).
Proof.
  revert content. induction walk as [|e walk IH]; intros content; simpl.
  - by rewrite (right_id_L ∅ (∪)).
  - rewrite IH, visit_append, append_insert, dom_insert_L.
    by rewrite (assoc_L (∪)), (comm_L (∪) (dom content)).
Qed.

(** X7.  The index is the walk, regrouped: the entries of all its lists
    together are, up to order, the entries built from the walk, each walk
    entry once. *)
Theorem X7_index_holds_the_walk_once (walk : list TskDirent) :
  concat (map_to_list (visit_filesystem fs_path walk)).*2 ≡ₚ
  dirent_of fs_path <$> walk.
Proof.
  unfold visit_filesystem. rewrite foldl_visit_entries.
  by rewrite map_to_list_empty.
Qed.

(** X8.  The keys of the index are the identifiers of the walk, and the
    walk leaves no key with an empty list. *)
Theorem X8_index_keys_are_walk_identifiers (walk : list TskDirent) :
  dom (visit_filesystem fs_path walk) = list_to_set (tsk_inode <$> walk) ∧
  ∀ k dirents, visit_filesystem fs_path walk !! k = Some dirents → dirents ≠ [].
Proof.
  unfold visit_filesystem. split.
  - by rewrite foldl_visit_dom, dom_empty_L, (left_id_L ∅ (∪)).
  - intros k dirents Hk ->.
    pose proof (foldl_visit_default fs_path walk ∅ k) as Hdef.
    rewrite Hk, lookup_empty in Hdef. simpl in Hdef.
    symmetry in Hdef. apply fmap_nil_inv in Hdef.
    assert (Hnone : foldl (visit fs_path) ∅ walk !! k = None).
    { apply foldl_visit_None. by rewrite lookup_empty. }
    congruence.
Qed.

(** X9.  A lookup that succeeds on the index of a walk gives the same entry
    on the index of any longer walk: later entries never come before the
    match. *)
Theorem X9_lookup_stable_under_longer_walk (walk more : list TskDirent)
    (event : JrnlEvent) (d : Dirent) :
  (lookup_dirent event (visit_filesystem fs_path walk)).1 = Ok d →
  (lookup_dirent event (visit_filesystem fs_path (walk ++ more))).1 = Ok d.
Proof.
  rewrite !lookup_dirent_fst. unfold visit_filesystem.
  rewrite foldl_app, (foldl_visit_default fs_path more). apply first_dirent_app.
Qed.
End index_more_facts.

Lemma X9_witness_longer_walk :
  (lookup_dirent ev_report
     (visit_filesystem (λ p, p)
        ([mkTskDirent 7 "a/report.txt" 64 1] ++
         [mkTskDirent 5 "dir/foo.txt" 120 1; mkTskDirent 7 "a/report.txt.old" 64 0]))).1
  = Ok dirent_report.
Proof.
  apply (X9_lookup_stable_under_longer_walk (λ p, p)
           [mkTskDirent 7 "a/report.txt" 64 1]
           [mkTskDirent 5 "dir/foo.txt" 120 1; mkTskDirent 7 "a/report.txt.old" 64 0]
           ev_report dirent_report).
  reflexivity.
Defined.

(** ** The correlator, further *)

Lemma first_dirent_Exists (name : string) (dirents : list Dirent) :
  Exists (λ d, contains name (path d) = true) dirents →
  ∃ d, first_dirent name dirents = Ok d.
Proof.
  induction 1 as [d0 dirents Hd0|d0 dirents _ [d IH]]; simpl.
  - rewrite Hd0. eauto.
  - destruct (contains name (path d0)); eauto.
Qed.

Lemma generate_timeline_app_snd (usnjrnl1 usnjrnl2 : list JrnlEvent)
    (content : gmap Z (list Dirent)) :
  (generate_timeline (usnjrnl1 ++ usnjrnl2) content).2 =
  (generate_timeline usnjrnl2 (generate_timeline usnjrnl1 content).2).2.
Proof.
  revert content. induction usnjrnl1 as [|event usnjrnl1 IH]; intros content;
    [done |].
  cbn [app]. rewrite !generate_timeline_cons. cbn [snd]. apply IH.
Qed.

(** X10.  A second run of the generator over the index the first run left
    is the first run again: the same events, and the index as it was left. *)
Theorem X10_second_run_is_first_run (usnjrnl : list JrnlEvent)
    (content : gmap Z (list Dirent)) :
  generate_timeline usnjrnl (generate_timeline usnjrnl content).2 =
  generate_timeline usnjrnl content.
Proof.
  apply injective_projections.
  - rewrite (generate_timeline_fst usnjrnl content).
    apply generate_timeline_fst_from, generate_timeline_default.
  - apply map_eq. intros k. rewrite !generate_timeline_snd.
    destruct (content !! k); [done |]. by case_decide.
Qed.

(** X11.  The generator over two journals one after the other: the events
    of the first, then the events the second yields on the index as it was at
    the start, since what the first run adds to the index changes no lookup;
    the index left is the one the second run leaves after the first. *)
Theorem X11_generate_timeline_app (usnjrnl1 usnjrnl2 : list JrnlEvent)
    (content : gmap Z (list Dirent)) :
  generate_timeline (usnjrnl1 ++ usnjrnl2) content =
  ((generate_timeline usnjrnl1 content).1 ++ (generate_timeline usnjrnl2 content).1,
   (generate_timeline usnjrnl2 (generate_timeline usnjrnl1 content).2).2).
Proof.
  apply injective_projections; cbn [fst snd].
  - by rewrite !generate_timeline_fst, omap_app.
  - apply generate_timeline_app_snd.
Qed.

(** X12.  Every event of the timeline is built from a journal event and an
    entry the index holds under the identifier of that event, and the path of
    the entry has the name of the journal event in it. *)
Theorem X12_timeline_event_has_matching_entry (usnjrnl : list JrnlEvent)
    (content : gmap Z (list Dirent)) (e : Event) :
  e ∈ (generate_timeline usnjrnl content).1 →
  ∃ event dirent dirents,
    event ∈ usnjrnl ∧ content !! inode event = Some dirents ∧ dirent ∈ dirents ∧
    substring (name event) (path dirent) ∧ e = event_of event dirent.
Proof.
  rewrite generate_timeline_fst, list_elem_of_omap.
  intros (event & Hin & Hy). unfold yielded in Hy.
  destruct (first_dirent _ _) as [dirent|] eqn:Hfirst; [|done].
  injection Hy as <-.
  pose proof (first_dirent_elem _ _ _ Hfirst) as Hd.
  apply first_dirent_Ok in Hfirst as (before & after & _ & Hmatch & _).
  destruct (content !! inode event) as [dirents|] eqn:Hk;
    [|by apply elem_of_nil in Hd].
  exists event, dirent, dirents. split_and!; try done. by apply contains_true.
Qed.

(** X13.  No event that can be resolved is dropped: a journal event with an
    entry under its identifier whose path has its name in it is in the
    timeline, built from such an entry. *)
Theorem X13_resolvable_event_is_yielded (usnjrnl : list JrnlEvent)
    (content : gmap Z (list Dirent)) (event : JrnlEvent)
    (dirents : list Dirent) (d : Dirent) :
  event ∈ usnjrnl → content !! inode event = Some dirents → d ∈ dirents →
  substring (name event) (path d) →
  ∃ dirent, dirent ∈ dirents ∧ substring (name event) (path dirent) ∧
            event_of event dirent ∈ (generate_timeline usnjrnl content).1.
Proof.
  intros Hev Hk Hd Hsub.
  destruct (first_dirent_Exists (name event) dirents) as [dirent Hfirst].
  { apply Exists_exists. exists d. split; [done | by apply contains_true]. }
  exists dirent. split_and!.
  - by eapply first_dirent_elem.
  - apply first_dirent_Ok in Hfirst as (_ & _ & _ & Hmatch & _).
    by apply contains_true.
  - rewrite generate_timeline_fst, list_elem_of_omap.
    exists event. split; [done |]. unfold yielded. rewrite Hk. simpl.
    by rewrite Hfirst.
Qed.

Lemma X12_witness_matching_entry :
  ∃ event dirent dirents,
    event ∈ [ev_foo; ev_bar; ev_report] ∧
    sample_content !! inode event = Some dirents ∧ dirent ∈ dirents ∧
    substring (name event) (path dirent) ∧
    event_of ev_report dirent_report = event_of event dirent.
Proof.
  apply (X12_timeline_event_has_matching_entry [ev_foo; ev_bar; ev_report]
           sample_content (event_of ev_report dirent_report)).
  right. left.
Defined.

Lemma X13_witness_resolvable :
  ∃ dirent, dirent ∈ [dirent_report; dirent_report_old] ∧
            substring (name ev_report) (path dirent) ∧
            event_of ev_report dirent ∈
              (generate_timeline [ev_foo; ev_bar; ev_report] sample_content).1.
Proof.
  apply (X13_resolvable_event_is_yielded [ev_foo; ev_bar; ev_report]
           sample_content ev_report [dirent_report; dirent_report_old]
           dirent_report_old).
  - right. right. left.
  - reflexivity.
  - right. left.
  - by exists "/a/", ".old".
Defined.

(** ** The pipeline *)

Lemma elem_of_concat {A : Type} (ls : list (list A)) (x : A) :
  x ∈ concat ls ↔ ∃ l, l ∈ ls ∧ x ∈ l.
Proof.
  induction ls as [|l0 ls IH]; simpl.
  - split; [by intros ?%elem_of_nil | by intros (l & ?%elem_of_nil & _)].
  - rewrite elem_of_app, IH. split.
    + intros [Hx | (l & Hl & Hx)]; [exists l0 | exists l];
        (split; [|done]); [left | by right].
    + intros (l & Hl & Hx). apply elem_of_cons in Hl as [-> | Hl]; eauto.
Qed.

Section pipeline_facts.
Variable list_of_set : list string → list string.
Variable fs_path : string → string.

(** Every event of [parse_journal] has the identifier, the name and the
    timestamp of a record of the journal. *)
Lemma parse_journal_record (journal : list UsnRecord) (evs : list JrnlEvent)
    (ev : JrnlEvent) :
  parse_journal list_of_set journal = Ok evs → ev ∈ evs →
  ∃ r, r ∈ journal ∧ inode ev = file_reference_number r ∧
       name ev = file_name r ∧ jrnl_timestamp ev = timestamp r.
Proof.
  unfold parse_journal. rewrite comprehension_Ok. intros Hall Hev.
  apply list_elem_of_lookup in Hev as [i Hi].
  destruct (Forall2_lookup_r _ _ _ _ _ Hall Hi) as (run & Hrun & Hje).
  destruct run as [|first rest]; [done |]. injection Hje as <-.
  exists first. split; [|done].
  rewrite <- (event_groups_concat journal). apply elem_of_concat.
  exists (first :: rest). split; [by eapply list_elem_of_lookup_2 | left].
Qed.

Lemma visit_filesystem_entry (walk : list TskDirent) (k : Z) (d : Dirent) :
  d ∈ default [] (visit_filesystem fs_path walk !! k) →
  ∃ w, w ∈ walk ∧ tsk_inode w = k ∧ d = dirent_of fs_path w.
Proof.
  unfold visit_filesystem. rewrite foldl_visit_default, lookup_empty. simpl.
  intros (w & -> & Hw)%list_elem_of_fmap.
  apply list_elem_of_filter in Hw as [Hk Hw]. eauto.
Qed.

(** X14.  When no record of the journal has the identifier of an entry of
    the walk, as with an empty walk, the timeline is empty: the pipeline
    returns, with no event. *)
Theorem X14_no_common_identifier_empty_timeline (journal : list UsnRecord)
    (walk : list TskDirent) :
  (∀ r w, r ∈ journal → w ∈ walk → file_reference_number r ≠ tsk_inode w) →
  timeline list_of_set fs_path journal walk = Ok [].
Proof.
  intros Hdisjoint.
  destruct (parse_journal_Ok list_of_set journal) as (evs & Hevs & _).
  unfold timeline. rewrite Hevs. cbn [mbind result_bind mret result_ret].
  f_equal. rewrite generate_timeline_fst.
  assert (Hnone : ∀ ev, ev ∈ evs →
            yielded (visit_filesystem fs_path walk) ev = None).
  { intros ev Hev. unfold yielded.
    destruct (first_dirent _ _) as [d|] eqn:Hfirst; [|done].
    apply first_dirent_elem, visit_filesystem_entry in Hfirst as (w & Hw & Hk & _).
    destruct (parse_journal_record journal evs ev Hevs Hev) as (r & Hr & Hi & _).
    destruct (Hdisjoint r w Hr Hw). congruence. }
  clear Hevs. induction evs as [|ev evs IH]; [done |]. simpl.
  rewrite Hnone by left. apply IH. intros ev' Hev'. apply Hnone. by right.
Qed.

(** X15.  The pipeline returns a timeline with no more events than the
    journal has records, and each of its events joins a record of the journal
    with an entry of the walk of the same identifier: it has the identifier
    and the timestamp of the record, the path, the size and the allocation
    flag the walk entry gives, and the path has the name of the record in
    it. *)
Theorem X15_timeline_joins_journal_and_walk (journal : list UsnRecord)
    (walk : list TskDirent) :
  ∃ events,
    timeline list_of_set fs_path journal walk = Ok events ∧
    (length events ≤ length journal)%nat ∧
    ∀ e, e ∈ events →
      ∃ r w, r ∈ journal ∧ w ∈ walk ∧
        tsk_inode w = file_reference_number r ∧
        ev_file_reference_number e = file_reference_number r ∧
        ev_timestamp e = timestamp r ∧
        ev_path e = fs_path ("/" +:+ tsk_name w) ∧
        ev_size e = tsk_size w ∧
        ev_allocated e = bool_decide (tsk_flags w = 1) ∧
        substring (file_name r) (ev_path e).
Proof.
  destruct (parse_journal_Ok list_of_set journal) as (evs & Hevs & Hall).
  exists (generate_timeline evs (visit_filesystem fs_path walk)).1.
  split_and!.
  - unfold timeline. by rewrite Hevs.
  - rewrite generate_timeline_fst.
    destruct (omap_sublist (yielded (visit_filesystem fs_path walk)) evs)
      as (kept & Hsub & Hkept).
    rewrite <- (Forall2_length _ _ _ Hkept).
    etrans; [by apply sublist_length |].
    rewrite <- (Forall2_length _ _ _ Hall). apply event_groups_length.
  - intros e. rewrite generate_timeline_fst, list_elem_of_omap.
    intros (ev & Hev & Hy). unfold yielded in Hy.
    destruct (first_dirent _ _) as [d|] eqn:Hfirst; [|done].
    injection Hy as <-.
    pose proof (first_dirent_elem _ _ _ Hfirst) as Hd.
    apply visit_filesystem_entry in Hd as (w & Hw & Hk & ->).
    apply first_dirent_Ok in Hfirst as (_ & _ & _ & Hmatch & _).
    apply contains_true in Hmatch.
    destruct (parse_journal_record journal evs ev Hevs Hev)
      as (r & Hr & Hi & Hn & Ht).
    exists r, w. simpl in *. rewrite <- Hn.
    split_and!; try done; congruence.
Qed.
End pipeline_facts.

Lemma X14_witness_no_common_identifier :
  timeline sample_order (λ p, p) [rec_bar_close] sample_walk = Ok [].
Proof.
  apply (X14_no_common_identifier_empty_timeline sample_order (λ p, p)
           [rec_bar_close] sample_walk).
  intros r w Hr%list_elem_of_In Hw%list_elem_of_In. simpl in Hr, Hw.
  destruct Hr as [<-|[]]. destruct Hw as [<-|[<-|[<-|[]]]]; discriminate.
Defined.
